(** * GitHubScrobbler: a shallow embedding of
      [src/core/scrobbler/github-scrobbler.ts]

    The scrobbler writes every playback event as a JSON file into one or
    more GitHub repositories through the "contents" REST endpoint.  The
    development below embeds the parts of the ECMAScript runtime the class
    relies on (strings of UTF-16 code units, [Date], [JSON.stringify],
    [btoa], promises joined under a timeout) and then the class itself,
    method by method. *)

From Stdlib Require Import ZArith List String Ascii Bool Lia DecimalString.
Import ListNotations.
Open Scope Z_scope.

(* ================================================================== *)
(** * Part I: definitions *)
(* ================================================================== *)

(** ** ECMAScript strings *)

Module JS.

(** A JavaScript string is a sequence of UTF-16 code units; a code unit is
    an integer in [0, 65535]. *)
Definition jsstring := list Z.

(** String literals of the source, one code unit per (ASCII) character. *)
Definition js (s : string) : jsstring :=
  map (fun a => Z.of_nat (nat_of_ascii a)) (list_ascii_of_string s).

(** [s.startsWith(p)] *)
Fixpoint starts_with (p s : jsstring) : bool :=
  match p, s with
  | [], _ => true
  | _ :: _, [] => false
  | a :: p', b :: s' => (a =? b) && starts_with p' s'
  end.

(** [s.indexOf(p)]: position of the first occurrence of [p] in [s]. *)
Fixpoint index_of (p s : jsstring) : option nat :=
  if starts_with p s then Some 0%nat
  else match s with
       | [] => None
       | _ :: s' => option_map S (index_of p s')
       end.

(** [s.split(sep)] for a separator of one code unit: the pieces between
    the occurrences of [sep]; never the empty array. *)
Fixpoint split (sep : Z) (s : jsstring) : list jsstring :=
  match s with
  | [] => [[]]
  | c :: s' =>
      if c =? sep then [] :: split sep s'
      else match split sep s' with
           | [] => [[c]]
           | piece :: rest => (c :: piece) :: rest
           end
  end.

Definition DOLLAR : Z := 36.

(** GetSubstitution (ECMA-262, 22.1.3.19.1) for a string pattern: there are
    no captures, so of the [$] forms only [$$], [$&], [$`] and [$'] are
    replaced and every other character stands for itself. *)
Fixpoint GetSubstitution (matched before after template : jsstring)
  : jsstring :=
  match template with
  | [] => []
  | c :: rest =>
      if c =? DOLLAR then
        match rest with
        | d :: rest' =>
            if d =? 36 then
              DOLLAR :: GetSubstitution matched before after rest'
            else if d =? 38 then
              matched ++ GetSubstitution matched before after rest'
            else if d =? 96 then
              before ++ GetSubstitution matched before after rest'
            else if d =? 39 then
              after ++ GetSubstitution matched before after rest'
            else c :: GetSubstitution matched before after rest
        | [] => [c]
        end
      else c :: GetSubstitution matched before after rest
  end.

(** [s.replace(pattern, replacement)] with a string pattern: only the first
    occurrence is replaced. *)
Definition replace (s pattern replacement : jsstring) : jsstring :=
  match index_of pattern s with
  | None => s
  | Some pos =>
      let before := firstn pos s in
      let after := skipn (pos + List.length pattern)%nat s in
      before ++ GetSubstitution pattern before after replacement ++ after
  end.

(** ** ECMAScript numbers, as far as the class uses them *)

(** The numbers the class handles are integers (epoch milliseconds, calendar
    fields) or the [NaN] the getters of an invalid [Date] return. *)
Inductive number : Type :=
| Num (z : Z)
| NaN.

(** Number::toString, radix 10, on integral Numbers.  For a safe integer
    (magnitude at most 2^53) the result is its decimal expansion, with a
    leading minus sign when negative.  A larger Number is a rounded double,
    printed with the fewest digits that identify it (2^63 reads
    9223372036854776000) and in exponent notation from 10^21 on; the full
    expansion given here is exact up to 2^53 only.  Every time value of a
    valid [Date] (at most 8.64e15) lies below that bound. *)
Definition decimal (z : Z) : jsstring :=
  js (NilZero.string_of_int (Z.to_int z)).

Definition ToString (n : number) : jsstring :=
  match n with
  | Num z => decimal z
  | NaN => js "NaN"
  end.

(** ToString of a value that may be [undefined]. *)
Definition ToString_opt (v : option jsstring) : jsstring :=
  match v with
  | Some s => s
  | None => js "undefined"
  end.

(** ** Date (ECMA-262, 21.4.1) *)

Definition msPerDay : Z := 86400000.

(** The largest magnitude of a time value: 100,000,000 days. *)
Definition maxTime : Z := 8640000000000000.

Definition Day (t : Z) : Z := t / msPerDay.

Definition DaysInYear (y : Z) : Z :=
  if negb (y mod 4 =? 0) then 365
  else if negb (y mod 100 =? 0) then 366
  else if negb (y mod 400 =? 0) then 365
  else 366.

Definition DayFromYear (y : Z) : Z :=
  365 * (y - 1970) + (y - 1969) / 4 - (y - 1901) / 100 + (y - 1601) / 400.

Definition TimeFromYear (y : Z) : Z := msPerDay * DayFromYear y.

(** YearFromTime is specified as "the largest integer y such that
    TimeFromYear(y) <= t".  It is computed here from the mean length of a
    Gregorian year (146097 days in 400 years), corrected by at most one
    year; [YearFromTime_spec] below shows the result is the specified one. *)
Definition YearFromDay (d : Z) : Z :=
  let y := 1970 + (400 * d) / 146097 in
  if DayFromYear (y + 1) <=? d then y + 1
  else if d <? DayFromYear y then y - 1
  else y.

Definition YearFromTime (t : Z) : Z := YearFromDay (Day t).

Definition InLeapYear (t : Z) : Z :=
  if DaysInYear (YearFromTime t) =? 366 then 1 else 0.

Definition DayWithinYear (t : Z) : Z :=
  Day t - DayFromYear (YearFromTime t).

Definition MonthFromTime (t : Z) : Z :=
  let d := DayWithinYear t in
  let leap := InLeapYear t in
  if d <? 31 then 0
  else if d <? 59 + leap then 1
  else if d <? 90 + leap then 2
  else if d <? 120 + leap then 3
  else if d <? 151 + leap then 4
  else if d <? 181 + leap then 5
  else if d <? 212 + leap then 6
  else if d <? 243 + leap then 7
  else if d <? 273 + leap then 8
  else if d <? 304 + leap then 9
  else if d <? 334 + leap then 10
  else 11.

Definition DateFromTime (t : Z) : Z :=
  let d := DayWithinYear t in
  let leap := InLeapYear t in
  match MonthFromTime t with
  | 0 => d + 1
  | 1 => d - 30
  | 2 => d - 58 - leap
  | 3 => d - 89 - leap
  | 4 => d - 119 - leap
  | 5 => d - 150 - leap
  | 6 => d - 180 - leap
  | 7 => d - 211 - leap
  | 8 => d - 242 - leap
  | 9 => d - 272 - leap
  | 10 => d - 303 - leap
  | _ => d - 333 - leap
  end.

(** 1 January 1970 was a Thursday; 0 is Sunday. *)
Definition WeekDay (t : Z) : Z := (Day t + 4) mod 7.

(** A [Date] object holds a time value, or [NaN] when it is invalid. *)
Record Date : Type := mkDate { DateValue : option Z }.

(** TimeClip *)
Definition TimeClip (t : Z) : option Z :=
  if Z.abs t <=? maxTime then Some t else None.

(** [new Date(value)] for an integral number [value]. *)
Definition new_Date (value : Z) : Date := mkDate (TimeClip value).

Definition date_field (f : Z -> Z) (d : Date) : number :=
  match DateValue d with
  | Some t => Num (f t)
  | None => NaN
  end.

Definition getUTCFullYear : Date -> number := date_field YearFromTime.
Definition getUTCMonth : Date -> number := date_field MonthFromTime.
Definition getUTCDate : Date -> number := date_field DateFromTime.
Definition getUTCDay : Date -> number := date_field WeekDay.
Definition getTime : Date -> number := date_field (fun t => t).


(** ** JSON.stringify (ECMA-262, 25.5.2) *)

(** The values [JSON.stringify] reads: the own enumerable properties of an
    object in insertion order, arrays, and primitive leaves.  A property
    whose value is [undefined] is never written, so it is not represented. *)
#[warnings="-register-all"]
Inductive json : Type :=
| JNull
| JBool (b : bool)
| JNumber (n : number)
| JString (s : jsstring)
| JArray (items : list json)
| JObject (fields : list (jsstring * json)).

Definition hex_digit (d : Z) : Z :=
  if d <? 10 then 48 + d else 97 + (d - 10).

(** UnicodeEscape: [\uXXXX] with lower-case hexadecimal digits. *)
Definition UnicodeEscape (c : Z) : jsstring :=
  [92; 117;
   hex_digit (Z.land (Z.shiftr c 12) 15);
   hex_digit (Z.land (Z.shiftr c 8) 15);
   hex_digit (Z.land (Z.shiftr c 4) 15);
   hex_digit (Z.land c 15)].

Definition is_leading_surrogate (c : Z) : bool :=
  (55296 <=? c) && (c <=? 56319).

Definition is_trailing_surrogate (c : Z) : bool :=
  (56320 <=? c) && (c <=? 57343).

(** One code unit that is not a surrogate, as QuoteJSONString writes it. *)
Definition quote_code_unit (c : Z) : jsstring :=
  if c =? 8 then js "\b"
  else if c =? 9 then js "\t"
  else if c =? 10 then js "\n"
  else if c =? 12 then js "\f"
  else if c =? 13 then js "\r"
  else if c =? 34 then [92; 34]
  else if c =? 92 then [92; 92]
  else if c <? 32 then UnicodeEscape c
  else [c].

(** The characters between the quotes: the string is read by code points,
    so a leading surrogate followed by a trailing one is copied and a lone
    surrogate is escaped. *)
Fixpoint quote_chars (s : jsstring) : jsstring :=
  match s with
  | [] => []
  | c :: rest =>
      if is_leading_surrogate c then
        match rest with
        | d :: rest' =>
            if is_trailing_surrogate d then c :: d :: quote_chars rest'
            else UnicodeEscape c ++ quote_chars rest
        | [] => UnicodeEscape c
        end
      else if is_trailing_surrogate c then UnicodeEscape c ++ quote_chars rest
      else quote_code_unit c ++ quote_chars rest
  end.

Definition QuoteJSONString (s : jsstring) : jsstring :=
  [34] ++ quote_chars s ++ [34].

(** [items.join(sep)] *)
Fixpoint join (sep : jsstring) (items : list jsstring) : jsstring :=
  match items with
  | [] => []
  | [x] => x
  | x :: rest => x ++ sep ++ join sep rest
  end.

(** The brackets around the members of an array or object, with the line
    breaks and indentation a non-empty [gap] asks for. *)
Definition wrap (open close gap stepback indent : jsstring)
    (members : list jsstring) : jsstring :=
  match members with
  | [] => open ++ close
  | _ =>
      match gap with
      | [] => open ++ join (js ",") members ++ close
      | _ =>
          open ++ [10] ++ indent
               ++ join (js "," ++ [10] ++ indent) members
               ++ [10] ++ stepback ++ close
      end
  end.

(** SerializeJSONProperty, with SerializeJSONObject and SerializeJSONArray;
    [indent] is the indentation of the enclosing value. *)
Fixpoint serialize (gap indent : jsstring) (v : json) : jsstring :=
  match v with
  | JNull => js "null"
  | JBool true => js "true"
  | JBool false => js "false"
  | JNumber (Num z) => decimal z
  | JNumber NaN => js "null"
  | JString s => QuoteJSONString s
  | JArray items =>
      wrap (js "[") (js "]") gap indent (indent ++ gap)
        (map (serialize gap (indent ++ gap)) items)
  | JObject fields =>
      wrap (js "{") (js "}") gap indent (indent ++ gap)
        (map (fun kv : jsstring * json =>
                let (k, x) := kv in
                QuoteJSONString k
                  ++ js ":" ++ match gap with [] => [] | _ => js " " end
                  ++ serialize gap (indent ++ gap) x)
             fields)
  end.

(** [JSON.stringify(value)] *)
Definition JSON_stringify (v : json) : jsstring := serialize [] [] v.

(** [JSON.stringify(value, null, n)] for 0 <= n <= 10: the gap is [n]
    spaces. *)
Definition JSON_stringify_indent (n : nat) (v : json) : jsstring :=
  serialize (repeat 32 n) [] v.

(** ** btoa (HTML, "forgiving-base64 encode" of a byte string) *)

Definition base64_char (i : Z) : Z :=
  if i <? 26 then 65 + i
  else if i <? 52 then 97 + (i - 26)
  else if i <? 62 then 48 + (i - 52)
  else if i =? 62 then 43
  else 47.

Definition PAD : Z := 61.

(** Three bytes make four characters of six bits each; one or two bytes
    left over are padded with [=]. *)
Fixpoint base64_encode (bytes : list Z) : jsstring :=
  match bytes with
  | [] => []
  | [a] =>
      [base64_char (a / 4);
       base64_char (a mod 4 * 16);
       PAD; PAD]
  | [a; b] =>
      [base64_char (a / 4);
       base64_char (a mod 4 * 16 + b / 16);
       base64_char (b mod 16 * 4);
       PAD]
  | a :: b :: c :: rest =>
      base64_char (a / 4)
      :: base64_char (a mod 4 * 16 + b / 16)
      :: base64_char (b mod 16 * 4 + c / 64)
      :: base64_char (c mod 64)
      :: base64_encode rest
  end.

(** A "binary string": every code unit is a byte. *)
Definition is_latin1 (s : jsstring) : bool :=
  forallb (fun c => (0 <=? c) && (c <=? 255)) s.

(** [btoa(s)]: the base64 form of [s] read as bytes; [None] stands for the
    [InvalidCharacterError] it throws when a code unit exceeds 255. *)
Definition btoa (s : jsstring) : option jsstring :=
  if is_latin1 s then Some (base64_encode s) else None.

(** The inverse reading of the alphabet. *)
Definition base64_value (c : Z) : option Z :=
  if (65 <=? c) && (c <=? 90) then Some (c - 65)
  else if (97 <=? c) && (c <=? 122) then Some (c - 71)
  else if (48 <=? c) && (c <=? 57) then Some (c + 4)
  else if c =? 43 then Some 62
  else if c =? 47 then Some 63
  else None.

(** Base64 decoding of padded text (RFC 4648): what a reader of the stored
    file applies to the [content] member.  [None] on text that is not
    base64. *)
Fixpoint base64_decode (s : jsstring) : option (list Z) :=
  match s with
  | [] => Some []
  | a :: b :: c :: d :: rest =>
      match base64_value a, base64_value b with
      | Some x, Some y =>
          if (c =? PAD) && (d =? PAD) then
            match rest with
            | [] => Some [x * 4 + y / 16]
            | _ => None
            end
          else
            match base64_value c with
            | Some z =>
                if d =? PAD then
                  match rest with
                  | [] => Some [x * 4 + y / 16; y mod 16 * 16 + z / 4]
                  | _ => None
                  end
                else
                  match base64_value d, base64_decode rest with
                  | Some w, Some bytes =>
                      Some (x * 4 + y / 16
                            :: y mod 16 * 16 + z / 4
                            :: z mod 4 * 64 + w
                            :: bytes)
                  | _, _ => None
                  end
            | None => None
            end
      | _, _ => None
      end
  | _ => None
  end.

End JS.

Import JS.

(** ** Promises, [fetch] and the event log *)

Module Host.

(** The errors a promise of this class can be rejected with. *)
Inductive exn : Type :=
| InvalidCharacterError          (* thrown by [btoa] *)
| NetworkError                   (* [fetch] rejects: the request failed *)
| TimeoutError                   (* [timeoutPromise] rejects *)
| Error (message : jsstring).    (* [new Error(message)] *)

(** How an evaluation ends: with a value, or by throwing.  For an [async]
    method these are the fulfilled and the rejected promise it returns. *)
Inductive completion (A : Type) : Type :=
| Normal (a : A)
| Throw (e : exn).
Arguments Normal {A} a.
Arguments Throw {A} e.

(** The second argument of [fetch]. *)
Record RequestInit : Type := mkRequestInit {
  method : jsstring;
  headers : list (jsstring * jsstring);
  body : jsstring
}.

(** The two members of a [Response] the class reads. *)
Record Response : Type := mkResponse {
  status : Z;
  url : jsstring
}.

(** What the class does to the outside world, in order. *)
Inductive event : Type :=
| DebugLog (text : jsstring) (logType : option jsstring)
| Fetch (input : jsstring) (init : RequestInit).

(** A computation: the events it performed and how it ended. *)
Definition M (A : Type) : Type := (list event * completion A)%type.

Definition ret {A} (a : A) : M A := ([], Normal a).

Definition throw {A} (e : exn) : M A := ([], Throw e).

Definition bind {A B} (m : M A) (k : A -> M B) : M B :=
  match m with
  | (tr, Normal a) => let (tr', c) := k a in (tr ++ tr', c)
  | (tr, Throw e) => (tr, Throw e)
  end.

(** [try { m } catch (e) { handler e }] *)
Definition try_catch {A} (m : M A) (handler : exn -> M A) : M A :=
  match m with
  | (tr, Throw e) => let (tr', c) := handler e in (tr ++ tr', c)
  | done => done
  end.

Definition trace {A} (m : M A) : list event := fst m.
Definition result {A} (m : M A) : completion A := snd m.

(** When and how a promise settles; times are milliseconds after the
    dispatch began.  [Pending] is a promise that never settles. *)
Inductive promise (A : Type) : Type :=
| Fulfilled (at_ms : nat) (value : A)
| Rejected (at_ms : nat) (reason : exn)
| Pending.
Arguments Fulfilled {A} at_ms value.
Arguments Rejected {A} at_ms reason.
Arguments Pending {A}.

(** The remote side: what the [i]-th [fetch] of a dispatch comes to. *)
Definition network : Type := nat -> jsstring -> RequestInit -> promise Response.

(** The environment of a call: the network and the clock [Date.now()]. *)
Record host : Type := mkHost {
  fetch_outcome : network;
  Date_now : Z
}.

(** [Promise.all(promises)]: fulfilled with all the values once every
    promise is fulfilled, rejected as soon as one of them is. *)
Fixpoint Promise_all {A} (promises : list (promise A)) : promise (list A) :=
  match promises with
  | [] => Fulfilled 0 []
  | p :: rest =>
      match p, Promise_all rest with
      | Fulfilled t v, Fulfilled t' vs => Fulfilled (Nat.max t t') (v :: vs)
      | Fulfilled _ _, Rejected t' e' => Rejected t' e'
      | Fulfilled _ _, Pending => Pending
      | Rejected t e, Rejected t' e' =>
          if (t <=? t')%nat then Rejected t e else Rejected t' e'
      | Rejected t e, _ => Rejected t e
      | Pending, Rejected t' e' => Rejected t' e'
      | Pending, _ => Pending
      end
  end.

(** Modelled from the spec: [timeoutPromise] of [util/util], which is not
    part of this file.  The joined wait is raced against one timeout clock:
    a promise that settles within [timeout] milliseconds is passed through,
    and when the wait exceeds the timeout the result is a rejection.  The
    value is what [await] makes of the returned promise. *)
Definition timeoutPromise {A} (timeout : nat) (p : promise A) : M A :=
  match p with
  | Fulfilled t v => if (t <=? timeout)%nat then ret v else throw TimeoutError
  | Rejected t e => if (t <=? timeout)%nat then throw e else throw TimeoutError
  | Pending => throw TimeoutError
  end.

End Host.

(** ** The class [GitHubScrobbler] *)

Module GitHubScrobbler.

Import Host.

Notation "x <- m ;; k" := (bind m (fun x => k))
  (at level 61, m at next level, right associativity).
Notation "m ;;; k" := (bind m (fun _ => k))
  (at level 61, right associativity).

(** Modelled from the spec: the enum [ServiceCallResult] is declared in
    [core/object/service-call-result]; these are the three members the
    class returns (the spec's [OK], [AUTH_MISSING] and
    [TRANSPORT_OR_STATUS_ERROR]). *)
Inductive ServiceCallResult : Type :=
| RESULT_OK
| ERROR_AUTH
| ERROR_OTHER.

(** Modelled from the spec: [BaseSong] is declared in [core/object/song];
    to this class a song is an opaque payload that is only serialized, so
    it is the JSON tree [JSON.stringify] reads from it. *)
Definition BaseSong : Type := json.

(** The [data] member of a request; [None] is a member that is absent or
    [undefined] (the two serialize alike). *)
Record RequestData : Type := mkData {
  song : option BaseSong;
  songs : option (list BaseSong);
  isLoved : option bool;
  currentlyPlaying : option bool
}.

(** A request.  [time] is an integral Number (the callers pass
    [Date.now()]); its decimal form is what Number::toString gives for a
    safe integer (magnitude at most 2^53). *)
Record GitHubRequest : Type := mkRequest {
  eventName : jsstring;
  time : Z;
  data : RequestData
}.

(** One entry of [arrayProperties], with the two user-defined properties
    [getUserDefinedArrayProperties] names. *)
Record props : Type := mkProps {
  applicationName : jsstring;
  userApiUrl : jsstring
}.

(** The members of [this] the class reads; both are inherited from
    [BaseScrobbler].  [arrayProperties] may be [undefined]. *)
Record scrobbler : Type := mkScrobbler {
  arrayProperties : option (list props);
  REQUEST_TIMEOUT : nat
}.

Record SessionData : Type := mkSession { sessionID : jsstring }.

Definition baseUrl : jsstring := js "https://api.github.com/".

Definition apiUrl : jsstring :=
  baseUrl ++ js "repos/{owner}/{repo}/contents/{path}".

(** [this.debugLog(text, logType)] *)
Definition debugLog (text : jsstring) (logType : option jsstring) : M unit :=
  ([DebugLog text logType], Normal tt).

(** [fetch(input, init)], as the [i]-th request of the dispatch. *)
Definition fetch (net : network) (i : nat) (input : jsstring)
    (init : RequestInit) : M (promise Response) :=
  ([Fetch input init], Normal (net i input init)).

(** The request object as [JSON.stringify] sees it. *)
Definition member {A} (key : string) (to_json : A -> json) (v : option A)
  : list (jsstring * json) :=
  match v with
  | Some x => [(js key, to_json x)]
  | None => []
  end.

Definition data_json (d : RequestData) : json :=
  JObject (member "song" (fun s => s) (song d)
           ++ member "songs" JArray (songs d)
           ++ member "isLoved" JBool (isLoved d)
           ++ member "currentlyPlaying" JBool (currentlyPlaying d)).

Definition request_json (request : GitHubRequest) : json :=
  JObject [(js "eventName", JString (eventName request));
           (js "time", JNumber (Num (time request)));
           (js "data", data_json (data request))].

(** [getSession] *)
Definition getSession (this : scrobbler) : M SessionData :=
  match arrayProperties this with
  | None | Some [] => throw (Error (js ""))
  | Some (_ :: _) => ret (mkSession (js "webhook"))
  end.

(** The path the event is stored under (the third argument of the
    [replace] chain in [sendRequest]). *)
Definition derivedPath (request : GitHubRequest) : jsstring :=
  let currentDate := new_Date (time request) in
  ToString (getUTCFullYear currentDate) ++ js "/"
    ++ ToString (getUTCMonth currentDate) ++ js "/"
    ++ ToString (getUTCDay currentDate) ++ js "/"
    ++ ToString (getTime currentDate) ++ js "-"
    ++ eventName request ++ js ".json".

Definition SLASH : Z := 47.

Definition targetUrl (request : GitHubRequest) (p : props) : jsstring :=
  replace
    (replace
       (replace apiUrl (js "{owner}")
          (ToString_opt (nth_error (split SLASH (applicationName p)) 0)))
       (js "{repo}")
       (ToString_opt (nth_error (split SLASH (applicationName p)) 1)))
    (js "{path}") (derivedPath request).

(** The body every destination receives. *)
Definition body_json (request : GitHubRequest) (content : jsstring) : json :=
  JObject [(js "message",
            JString (eventName request ++ js " at "
                       ++ ToString (Num (time request))));
           (js "committer",
            JObject [(js "name", JString (js "WebScrobbler"));
                     (js "email", JString (js "webscrobbler@github.com"))]);
           (js "content", JString content)].

(** [requestInfo]; evaluating it throws when [btoa] does. *)
Definition requestInfo (request : GitHubRequest) : M RequestInit :=
  match btoa (JSON_stringify (request_json request)) with
  | Some content =>
      ret (mkRequestInit (js "PUT")
             [(js "Content-Type", js "application/json")]
             (JSON_stringify (body_json request content)))
  | None => throw InvalidCharacterError
  end.

(** The [fetch] options of one destination: [requestInfo] with the
    [Authorization] header added. *)
Definition fetch_init (info : RequestInit) (p : props) : RequestInit :=
  mkRequestInit (method info)
    (headers info ++ [(js "Authorization", js "Bearer " ++ userApiUrl p)])
    (body info).

(** The loop [for (const props of this.arrayProperties)]; [promises] is the
    array built so far. *)
Fixpoint fan_out (net : network) (request : GitHubRequest)
    (info : RequestInit) (destinations : list props)
    (promises : list (promise Response)) : M (list (promise Response)) :=
  match destinations with
  | [] => ret promises
  | p :: rest =>
      pr <- fetch net (List.length promises) (targetUrl request p)
              (fetch_init info p) ;;
      fan_out net request info rest (promises ++ [pr])
  end.

(** The loop [for (const response of responses)]; [Some r] is the [return r]
    that leaves the method from inside the loop. *)
Fixpoint scan (responses : list Response) : M (option ServiceCallResult) :=
  match responses with
  | [] => ret None
  | response :: rest =>
      if negb (status response =? 200) then
        debugLog (js "Error in " ++ url response ++ js ".") (Some (js "error"))
        ;;; ret (Some ERROR_OTHER)
      else scan rest
  end.

(** [sendRequest] *)
Definition sendRequest (this : scrobbler) (net : network)
    (request : GitHubRequest) : M ServiceCallResult :=
  match arrayProperties this with
  | None | Some [] => ret ERROR_AUTH
  | Some destinations =>
      debugLog (js "GitHub - sendRequest: "
                  ++ JSON_stringify_indent 2 (request_json request)) None ;;;
      info <- requestInfo request ;;
      promises <- fan_out net request info destinations [] ;;
      let timeout := REQUEST_TIMEOUT this in
      returned <-
        try_catch
          (responses <- timeoutPromise timeout (Promise_all promises) ;;
           scan responses)
          (fun _ =>
             debugLog (js "Error while sending request") (Some (js "error"))
             ;;; ret (Some ERROR_OTHER)) ;;
      match returned with
      | Some r => ret r
      | None => ret RESULT_OK
      end
  end.

(** [sendNowPlaying] *)
Definition sendNowPlaying (this : scrobbler) (h : host) (s : BaseSong)
  : M ServiceCallResult :=
  sendRequest this (fetch_outcome h)
    (mkRequest (js "nowplaying") (Date_now h)
       (mkData (Some s) None None None)).

(** [sendPaused] *)
Definition sendPaused (this : scrobbler) (h : host) (s : BaseSong)
  : M ServiceCallResult :=
  sendRequest this (fetch_outcome h)
    (mkRequest (js "paused") (Date_now h)
       (mkData (Some s) None None None)).

(** [sendResumedPlaying] *)
Definition sendResumedPlaying (this : scrobbler) (h : host) (s : BaseSong)
  : M ServiceCallResult :=
  sendRequest this (fetch_outcome h)
    (mkRequest (js "resumedplaying") (Date_now h)
       (mkData (Some s) None None None)).

(** [scrobble]; [songs[0]] is [undefined] when the array is empty. *)
Definition scrobble (this : scrobbler) (h : host) (songs : list BaseSong)
    (currentlyPlaying : bool) : M (list ServiceCallResult) :=
  res <- sendRequest this (fetch_outcome h)
           (mkRequest (js "scrobble") (Date_now h)
              (mkData (nth_error songs 0) (Some songs) None
                 (Some currentlyPlaying))) ;;
  ret (repeat res (List.length songs)).

(** [toggleLove] *)
Definition toggleLove (this : scrobbler) (h : host) (s : BaseSong)
    (isLoved : bool) : M ServiceCallResult :=
  sendRequest this (fetch_outcome h)
    (mkRequest (js "loved") (Date_now h)
       (mkData (Some s) None (Some isLoved) None)).

End GitHubScrobbler.


(** ** The civil calendar *)

(** The proleptic Gregorian calendar, counted day by day from Thursday,
    1 January 1970.  This is the calendar the spec's "UTC calendar year",
    "UTC calendar month" and "UTC day-of-week" refer to; it is defined on
    its own here and compared with the [Date] getters below. *)
Module Calendar.

Definition leap_year (y : Z) : bool :=
  (y mod 4 =? 0) && (negb (y mod 100 =? 0) || (y mod 400 =? 0)).

(** Months are numbered from 0 (January) to 11 (December). *)
Definition month_length (y m : Z) : Z :=
  if m =? 1 then (if leap_year y then 29 else 28)
  else if (m =? 3) || (m =? 5) || (m =? 8) || (m =? 10) then 30
  else 31.

(** A date: year, month (January = 0), day of the month (from 1) and day of
    the week (Sunday = 0). *)
Record civil : Type := mkCivil {
  year : Z;
  month : Z;
  day : Z;
  weekday : Z
}.

Definition tomorrow (c : civil) : civil :=
  let wd := (weekday c + 1) mod 7 in
  if day c <? month_length (year c) (month c) then
    mkCivil (year c) (month c) (day c + 1) wd
  else if month c <? 11 then mkCivil (year c) (month c + 1) 1 wd
  else mkCivil (year c + 1) 0 1 wd.

Definition yesterday (c : civil) : civil :=
  let wd := (weekday c - 1) mod 7 in
  if 1 <? day c then mkCivil (year c) (month c) (day c - 1) wd
  else if 0 <? month c then
    mkCivil (year c) (month c - 1) (month_length (year c) (month c - 1)) wd
  else mkCivil (year c - 1) 11 31 wd.

(** [utc_date d c]: the day [d] days after 1 January 1970 is the date [c]. *)
Inductive utc_date : Z -> civil -> Prop :=
| utc_epoch : utc_date 0 (mkCivil 1970 0 1 4)
| utc_tomorrow d c : utc_date d c -> utc_date (d + 1) (tomorrow c)
| utc_yesterday d c : utc_date d c -> utc_date (d - 1) (yesterday c).

(** A date is well formed. *)
Definition civil_ok (c : civil) : Prop :=
  0 <= month c <= 11
  /\ 1 <= day c <= month_length (year c) (month c)
  /\ 0 <= weekday c <= 6.

End Calendar.

(** ** Reading a call: its trace, its requests, its promises *)

Import Host GitHubScrobbler Calendar.

(** The date a time value falls on, as the [Date] getters give it. *)
Definition civil_of_time (t : Z) : civil :=
  mkCivil (YearFromTime t) (MonthFromTime t) (DateFromTime t) (WeekDay t).

(** The month and the day of the month as functions of the day within the
    year and of the leap-year flag (the tables of MonthFromTime and
    DateFromTime). *)
Definition month_of (dwy leap : Z) : Z :=
  if dwy <? 31 then 0
  else if dwy <? 59 + leap then 1
  else if dwy <? 90 + leap then 2
  else if dwy <? 120 + leap then 3
  else if dwy <? 151 + leap then 4
  else if dwy <? 181 + leap then 5
  else if dwy <? 212 + leap then 6
  else if dwy <? 243 + leap then 7
  else if dwy <? 273 + leap then 8
  else if dwy <? 304 + leap then 9
  else if dwy <? 334 + leap then 10
  else 11.

Definition date_of (dwy leap : Z) : Z :=
  match month_of dwy leap with
  | 0 => dwy + 1
  | 1 => dwy - 30
  | 2 => dwy - 58 - leap
  | 3 => dwy - 89 - leap
  | 4 => dwy - 119 - leap
  | 5 => dwy - 150 - leap
  | 6 => dwy - 180 - leap
  | 7 => dwy - 211 - leap
  | 8 => dwy - 242 - leap
  | 9 => dwy - 272 - leap
  | 10 => dwy - 303 - leap
  | _ => dwy - 333 - leap
  end.

(** The path as the spec writes it: four numbers, the event name and the
    extension. *)
Definition path_of (y m d t : Z) (name : jsstring) : jsstring :=
  decimal y ++ js "/" ++ decimal m ++ js "/" ++ decimal d ++ js "/"
    ++ decimal t ++ js "-" ++ name ++ js ".json".

(** Every string of a JSON value, key or leaf, is a byte string. *)
Fixpoint json_latin1 (v : json) : bool :=
  match v with
  | JString s => is_latin1 s
  | JArray items => forallb json_latin1 items
  | JObject fields =>
      forallb (fun kv : jsstring * json =>
                 let (k, x) := kv in is_latin1 k && json_latin1 x) fields
  | _ => true
  end.

(** The requests among the events of a trace. *)
Definition requests (tr : list event) : list (jsstring * RequestInit) :=
  flat_map (fun e => match e with
                     | Fetch input init => [(input, init)]
                     | DebugLog _ _ => []
                     end) tr.

(** The messages logged at level [error]. *)
Definition errors (tr : list event) : list jsstring :=
  flat_map (fun e => match e with
                     | DebugLog text (Some _) => [text]
                     | _ => []
                     end) tr.

(** The requests a call sent. *)
Definition sent {A} (m : M A) : list (jsstring * RequestInit) :=
  requests (trace m).

(** The promises the network gives for a list of requests, the first of
    them being the [i]-th of the dispatch. *)
Fixpoint promises_from (net : network) (i : nat)
    (reqs : list (jsstring * RequestInit)) : list (promise Response) :=
  match reqs with
  | [] => []
  | (input, init) :: rest => net i input init :: promises_from net (S i) rest
  end.

(** The request one destination is sent. *)
Definition request_for (request : GitHubRequest) (info : RequestInit)
    (p : props) : jsstring * RequestInit :=
  (targetUrl request p, fetch_init info p).

(** The first event of a dispatch. *)
Definition entry_log (request : GitHubRequest) : event :=
  DebugLog (js "GitHub - sendRequest: "
              ++ JSON_stringify_indent 2 (request_json request)) None.

(** The part of [sendRequest] after the fan-out: the [try] statement and
    the final [return]. *)
Definition aggregate (timeout : nat) (promises : list (promise Response))
  : M ServiceCallResult :=
  returned <-
    try_catch
      (responses <- timeoutPromise timeout (Promise_all promises) ;;
       scan responses)
      (fun _ =>
         debugLog (js "Error while sending request") (Some (js "error"))
         ;;; ret (Some ERROR_OTHER)) ;;
  match returned with
  | Some r => ret r
  | None => ret RESULT_OK
  end.

(** The promise is fulfilled with [r] within the timeout. *)
Definition in_time (timeout : nat) (pr : promise Response) (r : Response)
  : Prop :=
  exists t, pr = Fulfilled t r /\ (t <= timeout)%nat.

Definition is_200 (r : Response) : Prop := status r = 200.

(** The joined wait [Promise.all] settles after the timeout, or never. *)
Definition joined_wait_exceeds (timeout : nat)
    (promises : list (promise Response)) : Prop :=
  match Promise_all promises with
  | Fulfilled t _ | Rejected t _ => (timeout < t)%nat
  | Pending => True
  end.

(** A request that failed at the transport level. *)
Definition rejected (pr : promise Response) : Prop :=
  exists t e, pr = Rejected t e.

(** A string without the characters that [split] and [replace] give a
    meaning to: [/], [$] and [{]. *)
Definition plain (s : jsstring) : Prop :=
  ~ In 47 s /\ ~ In 36 s /\ ~ In 123 s.

(** A byte. *)
Definition byte (c : Z) : Prop := 0 <= c <= 255.

(** Induction over JSON values, through the lists of an array's items
    and of an object's members. *)
Section json_induction.
Variable P : json -> Prop.
Hypothesis Hnull : P JNull.
Hypothesis Hbool : forall b, P (JBool b).
Hypothesis Hnumber : forall n, P (JNumber n).
Hypothesis Hstring : forall s, P (JString s).
Hypothesis Harray : forall items, Forall P items -> P (JArray items).
Hypothesis Hobject :
  forall fields, Forall (fun kv => P (snd kv)) fields -> P (JObject fields).

Fixpoint json_nested_ind (v : json) : P v :=
  match v with
  | JNull => Hnull
  | JBool b => Hbool b
  | JNumber n => Hnumber n
  | JString s => Hstring s
  | JArray items =>
      Harray items
        ((fix all (l : list json) : Forall P l :=
            match l with
            | [] => Forall_nil P
            | x :: l' => Forall_cons x (json_nested_ind x) (all l')
            end) items)
  | JObject fields =>
      Hobject fields
        ((fix all (l : list (jsstring * json))
            : Forall (fun kv => P (snd kv)) l :=
            match l with
            | [] => Forall_nil _
            | kv :: l' =>
                Forall_cons kv (json_nested_ind (snd kv)) (all l')
            end) fields)
  end.
End json_induction.

(** ** Sample values *)

Module Sample.

(** Two configured repositories. *)
Definition two_repos : scrobbler :=
  mkScrobbler
    (Some [mkProps (js "alice/music") (js "token-a");
           mkProps (js "bob/log") (js "token-b")])
    1000.

(** A song described in ASCII. *)
Definition ascii_song : BaseSong :=
  JObject [(js "artist", JString (js "Queen"));
           (js "track", JString (js "Bohemian Rhapsody"));
           (js "duration", JNumber (Num 354))].

(** A song whose artist is written in Cyrillic: the four letters are the
    code units 1050, 1080, 1085 and 1086. *)
Definition cyrillic_song : BaseSong :=
  JObject [(js "artist", JString [1050; 1080; 1085; 1086]);
           (js "track", JString (js "Gruppa krovi"))].

(** Every request is answered 200 after a few milliseconds. *)
Definition all_ok : network :=
  fun i input _ => Fulfilled (10 * S i) (mkResponse 200 input).

(** The second request is answered 404. *)
Definition second_404 : network :=
  fun i input _ =>
    Fulfilled (10 * S i) (mkResponse (if Nat.eqb i 1 then 404 else 200) input).

(** The second request never completes. *)
Definition second_hangs : network :=
  fun i input _ =>
    if Nat.eqb i 1 then Pending else Fulfilled 10 (mkResponse 200 input).

(** The first request fails at once. *)
Definition first_fails : network :=
  fun i input _ =>
    if Nat.eqb i 0 then Rejected 5 NetworkError
    else Fulfilled 10 (mkResponse 200 input).

(** The instant of the spec's example: Tuesday, 14 November 2023,
    22:13:20 UTC. *)
Definition example_time : Z := 1700000000000.

Definition nowplaying_ascii : GitHubRequest :=
  mkRequest (js "nowplaying") example_time
    (mkData (Some ascii_song) None None None).

Definition nowplaying_cyrillic : GitHubRequest :=
  mkRequest (js "nowplaying") example_time
    (mkData (Some cyrillic_song) None None None).

End Sample.

(* ================================================================== *)
(** * Part II: theorems *)
(* ================================================================== *)

(** ** The built-ins on known values *)

Example split_owner_repo_example :
  split SLASH (js "alice/music") = [js "alice"; js "music"].
Proof. reflexivity. Qed.

Example split_without_slash :
  nth_error (split SLASH (js "alice")) 0 = Some (js "alice")
  /\ nth_error (split SLASH (js "alice")) 1 = None.
Proof. split; reflexivity. Qed.

Example split_empty : split SLASH [] = [[]].
Proof. reflexivity. Qed.

Example replace_first_only :
  replace (js "a-b-c") (js "-") (js "+") = js "a+b-c".
Proof. reflexivity. Qed.

Example replace_dollar_forms :
  replace (js "<x>") (js "x") (js "[$$|$&|$`|$'|$1]") = js "<[$|x|<|>|$1]>".
Proof. reflexivity. Qed.

Example Date_2023_11_14 :
  civil_of_time 1700000000000 = mkCivil 2023 10 14 2.
Proof. reflexivity. Qed.

Example Date_leap_day :
  civil_of_time 951782400000 = mkCivil 2000 1 29 2.
Proof. reflexivity. Qed.

Example Date_before_epoch :
  civil_of_time (-1) = mkCivil 1969 11 31 3.
Proof. reflexivity. Qed.

Example Date_range :
  getUTCFullYear (new_Date maxTime) = Num 275760
  /\ getUTCFullYear (new_Date (- maxTime)) = Num (-271821)
  /\ getUTCFullYear (new_Date (maxTime + 1)) = NaN.
Proof. repeat split; reflexivity. Qed.

Example btoa_Man :
  btoa (js "Man") = Some (js "TWFu")
  /\ btoa (js "Ma") = Some (js "TWE=")
  /\ btoa (js "M") = Some (js "TQ==")
  /\ btoa [1050] = None.
Proof. repeat split; reflexivity. Qed.

(** [JSON.stringify({a: [1, null, "x\ny"], b: {}})] *)
Example JSON_stringify_example :
  JSON_stringify
    (JObject [(js "a", JArray [JNumber (Num 1); JNull;
                               JString (js "x" ++ [10] ++ js "y")]);
              (js "b", JObject [])])
  = js "{" ++ [34] ++ js "a" ++ [34] ++ js ":[1,null," ++ [34]
      ++ js "x\ny" ++ [34] ++ js "]," ++ [34] ++ js "b" ++ [34] ++ js ":{}}".
Proof. reflexivity. Qed.

(** [JSON.stringify({a: [1]}, null, 2)] *)
Example JSON_stringify_indent_example :
  JSON_stringify_indent 2 (JObject [(js "a", JArray [JNumber (Num 1)])])
  = js "{" ++ [10] ++ js "  " ++ [34] ++ js "a" ++ [34] ++ js ": ["
      ++ [10] ++ js "    1" ++ [10] ++ js "  ]" ++ [10] ++ js "}".
Proof. reflexivity. Qed.

(** A lone surrogate is escaped, a surrogate pair is not. *)
Example QuoteJSONString_surrogates :
  QuoteJSONString [55357; 56832; 55357]
  = [34; 55357; 56832] ++ js "\ud83d" ++ [34].
Proof. reflexivity. Qed.

Example targetUrl_example :
  targetUrl Sample.nowplaying_ascii (mkProps (js "alice/music") (js "token-a"))
  = js "https://api.github.com/repos/alice/music/contents/2023/10/2/1700000000000-nowplaying.json".
Proof. reflexivity. Qed.

(** A name without a slash leaves [undefined] for the repository. *)
Example targetUrl_without_repo :
  targetUrl Sample.nowplaying_ascii (mkProps (js "alice") (js "token-a"))
  = js "https://api.github.com/repos/alice/undefined/contents/2023/10/2/1700000000000-nowplaying.json".
Proof. reflexivity. Qed.

(** ** The [Date] getters and the calendar *)

Ltac zdiv := Z.to_euclidean_division_equations; lia.

(** Case analysis on the comparisons of a goal, dropping the cases
    arithmetic rules out. *)
Ltac split_ltb :=
  repeat (match goal with
          | |- context [?a <? ?b] => destruct (Z.ltb_spec a b)
          | |- context [?a =? ?b] => destruct (Z.eqb_spec a b)
          end; cbv iota; try lia).

Lemma DayFromYear_succ y : DayFromYear (y + 1) = DayFromYear y + DaysInYear y.
Proof.
  unfold DayFromYear, DaysInYear.
  repeat match goal with
         | |- context [?a =? ?b] => destruct (Z.eqb_spec a b)
         end; cbn [negb]; zdiv.
Qed.

Lemma DayFromYear_mono y y' : y <= y' -> DayFromYear y <= DayFromYear y'.
Proof. unfold DayFromYear. intros. zdiv. Qed.

(** The year computed is the one ECMA-262 specifies: the largest [y] whose
    first day is not after the given day. *)
Lemma YearFromDay_spec d :
  DayFromYear (YearFromDay d) <= d < DayFromYear (YearFromDay d + 1).
Proof.
  unfold YearFromDay.
  set (y := 1970 + 400 * d / 146097).
  assert (Hy : 146097 * (y - 1970) <= 400 * d < 146097 * (y - 1970) + 146097)
    by (subst y; zdiv).
  clearbody y.
  destruct (Z.leb_spec (DayFromYear (y + 1)) d) as [H1|H1].
  - split; [assumption|].
    replace (y + 1 + 1) with (y + 2) by lia.
    unfold DayFromYear in *. zdiv.
  - destruct (Z.ltb_spec d (DayFromYear y)) as [H2|H2].
    + replace (y - 1 + 1) with y by lia. split; [|assumption].
      unfold DayFromYear in *. zdiv.
    + split; assumption.
Qed.

Lemma YearFromDay_unique d y :
  DayFromYear y <= d < DayFromYear (y + 1) -> YearFromDay d = y.
Proof.
  intros H. pose proof (YearFromDay_spec d) as S.
  destruct (Z.lt_trichotomy (YearFromDay d) y) as [L|[E|G]]; [|assumption|].
  - pose proof (DayFromYear_mono (YearFromDay d + 1) y ltac:(lia)). lia.
  - pose proof (DayFromYear_mono (y + 1) (YearFromDay d) ltac:(lia)). lia.
Qed.

Lemma YearFromTime_spec t :
  TimeFromYear (YearFromTime t) <= t < TimeFromYear (YearFromTime t + 1).
Proof.
  unfold TimeFromYear, YearFromTime.
  pose proof (YearFromDay_spec (Day t)) as S. revert S.
  generalize (DayFromYear (YearFromDay (Day t))).
  generalize (DayFromYear (YearFromDay (Day t) + 1)).
  unfold Day, msPerDay. intros a b S. zdiv.
Qed.

Lemma YearFromTime_largest t y : TimeFromYear y <= t -> y <= YearFromTime t.
Proof.
  intros H. pose proof (YearFromTime_spec t) as S.
  destruct (Z.le_gt_cases y (YearFromTime t)) as [L|G]; [assumption|].
  pose proof (DayFromYear_mono (YearFromTime t + 1) y ltac:(lia)).
  unfold TimeFromYear, msPerDay in *. lia.
Qed.

Lemma leap_year_DaysInYear y :
  DaysInYear y = if leap_year y then 366 else 365.
Proof.
  unfold DaysInYear, leap_year.
  repeat match goal with
         | |- context [?a =? ?b] => destruct (Z.eqb_spec a b)
         end; cbn [negb andb orb]; try reflexivity; zdiv.
Qed.

Lemma civil_of_time_eq t :
  civil_of_time t =
  let y := YearFromDay (Day t) in
  let dwy := Day t - DayFromYear y in
  let leap := if leap_year y then 1 else 0 in
  mkCivil y (month_of dwy leap) (date_of dwy leap) ((Day t + 4) mod 7).
Proof.
  unfold civil_of_time, DateFromTime, MonthFromTime, InLeapYear, DayWithinYear,
    YearFromTime, WeekDay.
  cbv zeta. rewrite leap_year_DaysInYear.
  destruct (leap_year _); reflexivity.
Qed.

Lemma month_length_cases y m :
  0 <= m <= 11 ->
  month_length y m =
  match m with
  | 1 => if leap_year y then 29 else 28
  | 3 | 5 | 8 | 10 => 30
  | _ => 31
  end.
Proof.
  intros H.
  assert (C : m = 0 \/ m = 1 \/ m = 2 \/ m = 3 \/ m = 4 \/ m = 5 \/ m = 6
              \/ m = 7 \/ m = 8 \/ m = 9 \/ m = 10 \/ m = 11) by lia.
  repeat (destruct C as [C|C]; [subst m; reflexivity|]).
  subst m. reflexivity.
Qed.

Lemma month_of_range dwy leap : 0 <= month_of dwy leap <= 11.
Proof. unfold month_of. split_ltb; lia. Qed.

(** Within a year, the next day is the next day of the month or the first
    of the next month. *)
Lemma month_date_step y dwy leap :
  leap = (if leap_year y then 1 else 0) ->
  0 <= dwy -> dwy + 1 < 365 + leap ->
  let m := month_of dwy leap in
  let dt := date_of dwy leap in
  (dt < month_length y m
   /\ month_of (dwy + 1) leap = m /\ date_of (dwy + 1) leap = dt + 1)
  \/ (dt = month_length y m /\ m < 11
      /\ month_of (dwy + 1) leap = m + 1 /\ date_of (dwy + 1) leap = 1).
Proof.
  intros Hl H0 H1. cbv zeta.
  rewrite month_length_cases by apply month_of_range.
  unfold date_of.
  assert (L : leap = 0 \/ leap = 1) by (destruct (leap_year y); lia).
  unfold month_of.
  split_ltb; destruct (leap_year y); try lia;
    first [ left; repeat split; lia | right; repeat split; lia ].
Qed.

Lemma date_of_last leap :
  0 <= leap <= 1 ->
  month_of (364 + leap) leap = 11 /\ date_of (364 + leap) leap = 31.
Proof.
  intros H. assert (C : leap = 0 \/ leap = 1) by lia.
  destruct C; subst leap; split; reflexivity.
Qed.

Lemma date_of_range y dwy leap :
  leap = (if leap_year y then 1 else 0) ->
  0 <= dwy < 365 + leap ->
  1 <= date_of dwy leap <= month_length y (month_of dwy leap).
Proof.
  intros Hl H.
  rewrite month_length_cases by apply month_of_range.
  unfold date_of, month_of.
  split_ltb; destruct (leap_year y); lia.
Qed.

(** The getters move to the next day as the calendar does. *)
Lemma civil_step t t' :
  Day t' = Day t + 1 -> civil_of_time t' = tomorrow (civil_of_time t).
Proof.
  intros E. rewrite !civil_of_time_eq. cbv zeta. rewrite E.
  set (d := Day t). set (y := YearFromDay d).
  pose proof (YearFromDay_spec d) as S. fold y in S.
  rewrite DayFromYear_succ, leap_year_DaysInYear in S.
  set (leap := if leap_year y then 1 else 0).
  assert (Hleap : (if leap_year y then 366 else 365) = 365 + leap)
    by (subst leap; destruct (leap_year y); reflexivity).
  rewrite Hleap in S.
  assert (W : (d + 1 + 4) mod 7 = ((d + 4) mod 7 + 1) mod 7) by zdiv.
  destruct (Z.eq_dec (d + 1) (DayFromYear y + 365 + leap)) as [N|N].
  - (* the last day of the year *)
    assert (Y' : YearFromDay (d + 1) = y + 1).
    { apply YearFromDay_unique.
      rewrite !DayFromYear_succ, !leap_year_DaysInYear.
      fold leap. rewrite Hleap. destruct (leap_year (y + 1)); lia. }
    rewrite Y'. rewrite DayFromYear_succ, leap_year_DaysInYear, Hleap.
    replace (d + 1 - (DayFromYear y + (365 + leap))) with 0 by lia.
    replace (d - DayFromYear y) with (364 + leap) by lia.
    assert (L : 0 <= leap <= 1) by (subst leap; destruct (leap_year y); lia).
    destruct (date_of_last leap L) as [M D]. rewrite M, D.
    unfold tomorrow; cbn [year month day weekday].
    rewrite W. reflexivity.
  - assert (Y' : YearFromDay (d + 1) = y).
    { apply YearFromDay_unique.
      rewrite DayFromYear_succ, leap_year_DaysInYear.
      fold leap. rewrite Hleap. lia. }
    rewrite Y'. fold leap.
    replace (d + 1 - DayFromYear y) with (d - DayFromYear y + 1) by lia.
    destruct (month_date_step y (d - DayFromYear y) leap eq_refl) as [A|A];
      [lia | lia | |]; cbv zeta in A.
    + destruct A as (A1 & A2 & A3).
      unfold tomorrow; cbn [year month day weekday].
      apply Z.ltb_lt in A1. rewrite A1, A2, A3, W. reflexivity.
    + destruct A as (A1 & A2 & A3 & A4).
      unfold tomorrow; cbn [year month day weekday].
      rewrite A1, Z.ltb_irrefl. apply Z.ltb_lt in A2.
      rewrite A2, A3, A4, W. reflexivity.
Qed.

Lemma yesterday_tomorrow c : civil_ok c -> yesterday (tomorrow c) = c.
Proof.
  destruct c as [y m d w]. unfold civil_ok; cbn [year month day weekday].
  intros (Hm & Hd & Hw).
  assert (W : ((w + 1) mod 7 - 1) mod 7 = w) by zdiv.
  unfold tomorrow, yesterday; cbn [year month day weekday].
  destruct (Z.ltb_spec d (month_length y m)); cbn [year month day weekday].
  - destruct (Z.ltb_spec 1 (d + 1)); [|lia]. rewrite W. f_equal. lia.
  - destruct (Z.ltb_spec m 11); cbn [year month day weekday].
    + rewrite Z.ltb_irrefl. destruct (Z.ltb_spec 0 (m + 1)); [|lia].
      rewrite W. replace (m + 1 - 1) with m by lia. f_equal. lia.
    + rewrite Z.ltb_irrefl. cbn. rewrite W.
      assert (m = 11) by lia. subst m.
      rewrite month_length_cases in * by lia. f_equal; lia.
Qed.

Lemma civil_of_time_ok t : civil_ok (civil_of_time t).
Proof.
  rewrite civil_of_time_eq. cbv zeta.
  unfold civil_ok; cbn [year month day weekday].
  pose proof (YearFromDay_spec (Day t)) as S.
  rewrite DayFromYear_succ, leap_year_DaysInYear in S.
  split; [apply month_of_range|]. split; [|zdiv].
  apply date_of_range; [reflexivity|].
  destruct (leap_year _); lia.
Qed.

Lemma civil_step_back t t' :
  Day t' = Day t - 1 -> civil_of_time t' = yesterday (civil_of_time t).
Proof.
  intros E. rewrite (civil_step t' t) by lia.
  symmetry. apply yesterday_tomorrow, civil_of_time_ok.
Qed.

Lemma civil_of_time_Day t t' :
  Day t = Day t' -> civil_of_time t = civil_of_time t'.
Proof. intros E. rewrite !civil_of_time_eq. cbv zeta. rewrite E. reflexivity. Qed.

Lemma Day_of_day d : Day (d * msPerDay) = d.
Proof. unfold Day, msPerDay. zdiv. Qed.

(** The getters give the calendar date of the day the time value lies in. *)
Lemma civil_of_time_utc t : utc_date (Day t) (civil_of_time t).
Proof.
  rewrite (civil_of_time_Day t (Day t * msPerDay)) by (now rewrite Day_of_day).
  generalize (Day t) as d. intros d.
  destruct (Z.le_gt_cases 0 d) as [P|N].
  - revert d P. apply natlike_ind.
    + exact utc_epoch.
    + intros d P IH. unfold Z.succ.
      rewrite (civil_step (d * msPerDay))
        by (rewrite !Day_of_day; reflexivity).
      now apply utc_tomorrow.
  - assert (E : d = - Z.of_nat (Z.to_nat (- d))) by lia.
    rewrite E. generalize (Z.to_nat (- d)) as n. clear.
    induction n as [|n IH].
    + exact utc_epoch.
    + replace (- Z.of_nat (S n)) with (- Z.of_nat n - 1) by lia.
      rewrite (civil_step_back (- Z.of_nat n * msPerDay))
        by (rewrite !Day_of_day; reflexivity).
      now apply utc_yesterday.
Qed.

(** The calendar gives every day one date only. *)
Lemma utc_date_unique d c : utc_date d c -> c = civil_of_time (d * msPerDay).
Proof.
  induction 1 as [|d c H IH|d c H IH].
  - reflexivity.
  - subst c. symmetry. apply civil_step. now rewrite !Day_of_day.
  - subst c. symmetry. apply civil_step_back. now rewrite !Day_of_day.
Qed.

Lemma utc_date_of_time t c : utc_date (Day t) c -> c = civil_of_time t.
Proof.
  intros H. rewrite (utc_date_unique _ _ H).
  apply civil_of_time_Day. now rewrite Day_of_day.
Qed.

(** *** The derived path *)

Lemma TimeClip_valid t : Z.abs t <= maxTime -> TimeClip t = Some t.
Proof. intros H. unfold TimeClip. apply Z.leb_le in H. now rewrite H. Qed.

Lemma derivedPath_valid request :
  Z.abs (time request) <= maxTime ->
  derivedPath request
  = path_of (YearFromTime (time request)) (MonthFromTime (time request))
      (WeekDay (time request)) (time request) (eventName request).
Proof.
  intros H. unfold derivedPath, new_Date, getUTCFullYear, getUTCMonth,
    getUTCDay, getTime, date_field.
  cbn [DateValue]. rewrite (TimeClip_valid _ H). reflexivity.
Qed.

Lemma TimeClip_invalid t : maxTime < Z.abs t -> TimeClip t = None.
Proof. intros H. unfold TimeClip. apply Z.leb_gt in H. now rewrite H. Qed.

Lemma derivedPath_invalid request :
  maxTime < Z.abs (time request) ->
  derivedPath request
  = js "NaN/NaN/NaN/NaN-" ++ eventName request ++ js ".json".
Proof.
  intros H. unfold derivedPath, new_Date, getUTCFullYear, getUTCMonth,
    getUTCDay, getTime, date_field.
  cbn [DateValue]. rewrite (TimeClip_invalid _ H). reflexivity.
Qed.

(** C5 (as amended): the derived path is a function of the event name and
    the timestamp alone.  For a timestamp in the range of a [Date] (at most
    8.64e15 ms from the epoch) it is
    [<year>/<month>/<day-field>/<epoch-millis>-<event-name>.json], where
    year, month (January = 0) and day-field (the day of the week,
    Sunday = 0) are those of the UTC calendar date [c] of the timestamp; the
    day of the month is not used.  For every timestamp outside that range
    the [Date] is invalid and the four numeric fields read [NaN]. *)
Theorem derivedPath_form name t payload :
  (Z.abs t <= maxTime ->
   utc_date (Day t) (civil_of_time t)
   /\ forall c, utc_date (Day t) c ->
        derivedPath (mkRequest name t payload)
        = path_of (year c) (month c) (weekday c) t name
        /\ 0 <= month c <= 11 /\ 0 <= weekday c <= 6)
  /\ (maxTime < Z.abs t ->
      derivedPath (mkRequest name t payload)
      = js "NaN/NaN/NaN/NaN-" ++ name ++ js ".json").
Proof.
  split.
  - intros Ht. split; [apply civil_of_time_utc|].
    intros c Hc. apply utc_date_of_time in Hc. subst c.
    rewrite derivedPath_valid by exact Ht.
    destruct (civil_of_time_ok t) as (Hm & _ & Hw).
    split; [reflexivity|]. split; assumption.
  - intros Ht. now rewrite derivedPath_invalid by exact Ht.
Qed.

Lemma derivedPath_form_witness :
  derivedPath (mkRequest (js "scrobble") 1700000000000 (mkData None None None None))
  = js "2023/10/2/1700000000000-scrobble.json"
  /\ derivedPath (mkRequest (js "scrobble") (-8640000000000001)
                    (mkData None None None None))
     = js "NaN/NaN/NaN/NaN-scrobble.json".
Proof.
  split.
  - refine (proj1 (proj2 (proj1 (derivedPath_form (js "scrobble") 1700000000000
                                   (mkData None None None None)) _)
                     (mkCivil 2023 10 14 2) _)).
    + vm_compute. discriminate.
    + apply (civil_of_time_utc 1700000000000).
  - apply (proj2 (derivedPath_form (js "scrobble") (-8640000000000001)
                    (mkData None None None None))).
    vm_compute. reflexivity.
Defined.

(** Beyond the range of a [Date] the getters return [NaN], so the path does
    not carry the calendar year of the instant: one millisecond past the
    last valid time value, in the year 275760, all four numbers read
    [NaN]. *)
Lemma derivedPath_out_of_range :
  ~ (forall name t payload c,
        utc_date (Day t) c ->
        derivedPath (mkRequest name t payload)
        = path_of (year c) (month c) (weekday c) t name).
Proof.
  intros H.
  specialize (H (js "scrobble") 8640000000000001 (mkData None None None None)
                (civil_of_time 8640000000000001) (civil_of_time_utc _)).
  vm_compute in H. discriminate H.
Qed.

Lemma derivedPath_NaN :
  derivedPath (mkRequest (js "scrobble") 8640000000000001
                 (mkData None None None None))
  = js "NaN/NaN/NaN/NaN-scrobble.json".
Proof. reflexivity. Qed.

(** The third field is the day of the week, not the day of the month: the
    14th of November 2023 was a Tuesday. *)
Lemma derivedPath_not_day_of_month :
  getUTCDate (new_Date Sample.example_time) = Num 14
  /\ getUTCDay (new_Date Sample.example_time) = Num 2
  /\ derivedPath Sample.nowplaying_ascii
     = js "2023/10/2/1700000000000-nowplaying.json".
Proof. repeat split; reflexivity. Qed.

(** ** Byte strings and [btoa] *)

Lemma is_latin1_app a b : is_latin1 (a ++ b) = is_latin1 a && is_latin1 b.
Proof. apply forallb_app. Qed.

Lemma is_latin1_js s : is_latin1 (js s) = true.
Proof.
  unfold js. induction s as [|a s IH]; [reflexivity|].
  cbn [list_ascii_of_string map is_latin1 forallb].
  fold (is_latin1 (map (fun a => Z.of_nat (nat_of_ascii a)) (list_ascii_of_string s))).
  rewrite IH, andb_true_r.
  pose proof (nat_ascii_bounded a).
  apply andb_true_intro. split; [apply Z.leb_le|apply Z.leb_le]; lia.
Qed.

Lemma is_latin1_decimal z : is_latin1 (decimal z) = true.
Proof. apply is_latin1_js. Qed.

Lemma hex_digit_latin1 x : is_latin1 [hex_digit (Z.land x 15)] = true.
Proof.
  change 15 with (Z.ones 4). rewrite Z.land_ones by lia.
  unfold hex_digit, is_latin1. cbn [forallb]. rewrite andb_true_r.
  destruct (Z.ltb_spec (x mod 2 ^ 4) 10);
    apply andb_true_intro; split; apply Z.leb_le; zdiv.
Qed.

Lemma UnicodeEscape_latin1 c : is_latin1 (UnicodeEscape c) = true.
Proof.
  unfold UnicodeEscape.
  change (is_latin1 ([92; 117] ++ [hex_digit (Z.land (Z.shiftr c 12) 15)]
                      ++ [hex_digit (Z.land (Z.shiftr c 8) 15)]
                      ++ [hex_digit (Z.land (Z.shiftr c 4) 15)]
                      ++ [hex_digit (Z.land c 15)]) = true).
  rewrite !is_latin1_app, !hex_digit_latin1. reflexivity.
Qed.

Lemma quote_code_unit_latin1 c :
  is_latin1 [c] = true -> is_latin1 (quote_code_unit c) = true.
Proof.
  intros H. unfold quote_code_unit.
  repeat match goal with
         | |- context [if ?b then _ else _] => destruct b; [try reflexivity|]
         end; auto using UnicodeEscape_latin1.
Qed.

Lemma quote_chars_latin1 s : is_latin1 s = true -> is_latin1 (quote_chars s) = true.
Proof.
  induction s as [|c s IH]; [reflexivity|].
  intros H. change (c :: s) with ([c] ++ s) in H.
  rewrite is_latin1_app in H. apply andb_prop in H. destruct H as [Hc Hs].
  assert (B : is_leading_surrogate c = false /\ is_trailing_surrogate c = false).
  { unfold is_latin1 in Hc. cbn in Hc. rewrite andb_true_r in Hc.
    apply andb_prop in Hc. destruct Hc as [_ Hc]. apply Z.leb_le in Hc.
    unfold is_leading_surrogate, is_trailing_surrogate.
    split; apply andb_false_intro1; apply Z.leb_gt; lia. }
  destruct B as [B1 B2]. cbn [quote_chars]. rewrite B1, B2.
  rewrite is_latin1_app, (quote_code_unit_latin1 c Hc), (IH Hs). reflexivity.
Qed.

Lemma QuoteJSONString_latin1 s :
  is_latin1 s = true -> is_latin1 (QuoteJSONString s) = true.
Proof.
  intros H. unfold QuoteJSONString.
  rewrite !is_latin1_app, (quote_chars_latin1 s H). reflexivity.
Qed.

Lemma join_latin1 sep items :
  is_latin1 sep = true -> Forall (fun x => is_latin1 x = true) items ->
  is_latin1 (join sep items) = true.
Proof.
  intros Hs H. induction H as [|x l Hx Hl IH]; [reflexivity|].
  cbn [join]. destruct l as [|y l']; [exact Hx|].
  rewrite !is_latin1_app, Hx, Hs, IH. reflexivity.
Qed.

Lemma wrap_latin1 open close gap stepback indent members :
  is_latin1 open = true -> is_latin1 close = true ->
  is_latin1 stepback = true -> is_latin1 indent = true ->
  Forall (fun x => is_latin1 x = true) members ->
  is_latin1 (wrap open close gap stepback indent members) = true.
Proof.
  intros Ho Hc Hs Hi Hm. unfold wrap.
  destruct members as [|m ms]; [now rewrite is_latin1_app, Ho, Hc|].
  destruct gap as [|g gs].
  - rewrite !is_latin1_app, Ho, Hc, join_latin1; auto using is_latin1_js.
  - rewrite !is_latin1_app, Ho, Hc, Hs, Hi, join_latin1; auto.
Qed.

Lemma serialize_latin1 gap v : 
  is_latin1 gap = true -> json_latin1 v = true ->
  forall indent, is_latin1 indent = true ->
  is_latin1 (serialize gap indent v) = true.
Proof.
  intros Hg. induction v as [|b|n|s|items IH|fields IH] using json_nested_ind;
    intros Hv indent Hi; cbn [serialize].
  - reflexivity.
  - destruct b; reflexivity.
  - destruct n; [apply is_latin1_decimal | reflexivity].
  - now apply QuoteJSONString_latin1.
  - apply wrap_latin1; auto using is_latin1_js.
    + now rewrite is_latin1_app, Hi, Hg.
    + cbn [json_latin1] in Hv. rewrite forallb_forall in Hv.
      rewrite Forall_forall in IH |- *. intros x Hx.
      apply in_map_iff in Hx. destruct Hx as (y & <- & Hy).
      apply IH; auto. now rewrite is_latin1_app, Hi, Hg.
  - apply wrap_latin1; auto using is_latin1_js.
    + now rewrite is_latin1_app, Hi, Hg.
    + cbn [json_latin1] in Hv. rewrite forallb_forall in Hv.
      rewrite Forall_forall in IH |- *. intros x Hx.
      apply in_map_iff in Hx. destruct Hx as ([k y] & <- & Hy).
      specialize (Hv _ Hy). cbn in Hv. apply andb_prop in Hv. destruct Hv as [Hk Hy'].
      rewrite !is_latin1_app, (QuoteJSONString_latin1 k Hk), is_latin1_js.
      cbn [andb].
      apply andb_true_intro. split; [destruct gap; reflexivity|].
      apply (IH _ Hy); auto. now rewrite is_latin1_app, Hi, Hg.
Qed.

(** [btoa] accepts the serialization of a value whose strings are byte
    strings. *)
Lemma btoa_JSON_stringify v :
  json_latin1 v = true ->
  btoa (JSON_stringify v) = Some (base64_encode (JSON_stringify v)).
Proof.
  intros H. unfold btoa, JSON_stringify.
  rewrite serialize_latin1; auto.
Qed.

(** *** Base64 *)

Lemma base64_value_char i :
  0 <= i < 64 -> base64_value (base64_char i) = Some i /\ base64_char i <> PAD.
Proof.
  intros H. unfold base64_char, base64_value, PAD.
  split_ltb;
    repeat match goal with
           | |- context [(?a <=? ?b)] => destruct (Z.leb_spec a b); try lia
           end; cbn [andb]; split; first [f_equal; lia | lia].
Qed.

Lemma base64_char_not_pad i : 0 <= i < 64 -> (base64_char i =? PAD) = false.
Proof. intros H. apply Z.eqb_neq. now apply base64_value_char. Qed.

Lemma is_latin1_Forall s : is_latin1 s = true <-> Forall byte s.
Proof.
  unfold is_latin1. rewrite forallb_forall, Forall_forall.
  split; intros H c Hc; specialize (H c Hc); unfold byte in *.
  - apply andb_prop in H. destruct H as [A B].
    apply Z.leb_le in A. apply Z.leb_le in B. lia.
  - apply andb_true_intro. split; apply Z.leb_le; lia.
Qed.

(** Lists are taken apart three elements at a time. *)
Lemma list_ind3 {A} (P : list A -> Prop) :
  P [] -> (forall a, P [a]) -> (forall a b, P [a; b]) ->
  (forall a b c l, P l -> P (a :: b :: c :: l)) ->
  forall l, P l.
Proof.
  intros H0 H1 H2 H3.
  assert (G : forall l, P l /\ (forall a, P (a :: l)) /\ (forall a b, P (a :: b :: l))).
  { induction l as [|x l (IH0 & IH1 & IH2)]; [now auto|].
    split; [apply IH1|]. split; [intros a; apply IH2|].
    intros a b. now apply H3. }
  intros l. apply G.
Qed.

(** Decoding undoes encoding on byte strings. *)
Lemma base64_decode_encode bytes :
  Forall byte bytes -> base64_decode (base64_encode bytes) = Some bytes.
Proof.
  induction bytes as [|a|a b|a b c l IH] using list_ind3; intros H.
  - reflexivity.
  - inversion H as [|? ? Ha _]; subst. unfold byte in Ha.
    cbn [base64_encode base64_decode].
    rewrite (proj1 (base64_value_char (a / 4) ltac:(zdiv))).
    rewrite (proj1 (base64_value_char (a mod 4 * 16) ltac:(zdiv))).
    rewrite !Z.eqb_refl. cbn [andb]. do 2 f_equal. zdiv.
  - inversion H as [|? ? Ha H']; subst. inversion H' as [|? ? Hb _]; subst.
    unfold byte in Ha, Hb. cbn [base64_encode base64_decode].
    rewrite (proj1 (base64_value_char (a / 4) ltac:(zdiv))).
    rewrite (proj1 (base64_value_char (a mod 4 * 16 + b / 16) ltac:(zdiv))).
    rewrite (base64_char_not_pad (b mod 16 * 4)) by zdiv. cbn [andb].
    rewrite (proj1 (base64_value_char (b mod 16 * 4) ltac:(zdiv))).
    rewrite Z.eqb_refl. do 2 f_equal; [zdiv|]. f_equal. zdiv.
  - inversion H as [|? ? Ha H']; subst. inversion H' as [|? ? Hb H'']; subst.
    inversion H'' as [|? ? Hc Hl]; subst.
    unfold byte in Ha, Hb, Hc. cbn [base64_encode base64_decode].
    rewrite (proj1 (base64_value_char (a / 4) ltac:(zdiv))).
    rewrite (proj1 (base64_value_char (a mod 4 * 16 + b / 16) ltac:(zdiv))).
    rewrite (base64_char_not_pad (b mod 16 * 4 + c / 64)) by zdiv. cbn [andb].
    rewrite (proj1 (base64_value_char (b mod 16 * 4 + c / 64) ltac:(zdiv))).
    rewrite (base64_char_not_pad (c mod 64)) by zdiv.
    rewrite (proj1 (base64_value_char (c mod 64) ltac:(zdiv))).
    rewrite (IH Hl). f_equal. f_equal; [zdiv|]. f_equal; [zdiv|]. f_equal. zdiv.
Qed.

(** What [btoa] accepts it encodes so that decoding gives the text back. *)
Lemma base64_decode_btoa s content :
  btoa s = Some content -> base64_decode content = Some s.
Proof.
  unfold btoa. destruct (is_latin1 s) eqn:E; [|discriminate].
  intros [= <-]. apply base64_decode_encode. now apply is_latin1_Forall.
Qed.

(** ** [split] and [replace] on plain names *)

Lemma split_no_separator sep s : ~ In sep s -> split sep s = [s].
Proof.
  induction s as [|c s IH]; intros H; [reflexivity|].
  cbn [split]. destruct (Z.eqb_spec c sep) as [E|N].
  - exfalso. apply H. left. exact E.
  - rewrite IH by (intros I; apply H; now right). reflexivity.
Qed.

Lemma split_first sep a b :
  ~ In sep a -> split sep (a ++ sep :: b) = a :: split sep b.
Proof.
  induction a as [|c a IH]; intros H.
  - cbn [app split]. now rewrite Z.eqb_refl.
  - cbn [app split]. destruct (Z.eqb_spec c sep) as [E|N].
    + exfalso. apply H. left. exact E.
    + rewrite IH by (intros I; apply H; now right). reflexivity.
Qed.

(** [owner/repo] splits into the owner and the repository. *)
Lemma split_owner_repo owner repo :
  ~ In SLASH owner -> ~ In SLASH repo ->
  split SLASH (owner ++ js "/" ++ repo) = [owner; repo].
Proof.
  intros Ho Hr. change (js "/" ++ repo) with (SLASH :: repo).
  rewrite split_first by exact Ho. now rewrite split_no_separator.
Qed.

Lemma starts_with_app p s : starts_with p (p ++ s) = true.
Proof.
  induction p as [|c p IH]; [reflexivity|].
  cbn [app starts_with]. now rewrite Z.eqb_refl, IH.
Qed.

Lemma index_of_cons p x s :
  index_of p (x :: s)
  = if starts_with p (x :: s) then Some 0%nat else option_map S (index_of p s).
Proof. reflexivity. Qed.

(** The first occurrence of a pattern lies after a prefix that lacks the
    pattern's first character. *)
Lemma index_of_after c p before after :
  ~ In c before ->
  index_of (c :: p) (before ++ (c :: p) ++ after) = Some (List.length before).
Proof.
  induction before as [|x before IH]; intros H.
  - change ([] ++ (c :: p) ++ after) with (c :: (p ++ after)).
    rewrite index_of_cons.
    change (c :: p ++ after) with ((c :: p) ++ after).
    now rewrite starts_with_app.
  - change ((x :: before) ++ (c :: p) ++ after)
      with (x :: (before ++ (c :: p) ++ after)).
    rewrite index_of_cons.
    assert (N : starts_with (c :: p) (x :: before ++ (c :: p) ++ after) = false).
    { cbn [starts_with]. destruct (Z.eqb_spec c x) as [E|N]; [|reflexivity].
      exfalso. apply H. left. now symmetry. }
    rewrite N, IH by (intros I; apply H; now right). reflexivity.
Qed.

(** A replacement text without [$] stands for itself. *)
Lemma GetSubstitution_literal matched before after template :
  ~ In DOLLAR template ->
  GetSubstitution matched before after template = template.
Proof.
  induction template as [|c rest IH]; intros H; [reflexivity|].
  cbn [GetSubstitution]. destruct (Z.eqb_spec c DOLLAR) as [E|N].
  - exfalso. apply H. left. exact E.
  - rewrite IH by (intros I; apply H; now right). reflexivity.
Qed.

Lemma replace_first c p before after replacement :
  ~ In c before -> ~ In DOLLAR replacement ->
  replace (before ++ (c :: p) ++ after) (c :: p) replacement
  = before ++ replacement ++ after.
Proof.
  intros Hb Hr. unfold replace. rewrite index_of_after by exact Hb.
  rewrite GetSubstitution_literal by exact Hr.
  rewrite firstn_app, firstn_all, Nat.sub_diag, firstn_O, app_nil_r.
  rewrite skipn_app, skipn_all2 by lia.
  replace (List.length before + List.length (c :: p) - List.length before)%nat
    with (List.length (c :: p)) by lia.
  rewrite skipn_app, skipn_all, Nat.sub_diag, skipn_O. reflexivity.
Qed.

Lemma not_in_app {A} (x : A) l l' : ~ In x l -> ~ In x l' -> ~ In x (l ++ l').
Proof. intros H H' I. apply in_app_or in I. tauto. Qed.

Lemma not_in_js c s :
  forallb (fun a => negb (Z.of_nat (nat_of_ascii a) =? c)) (list_ascii_of_string s)
  = true ->
  ~ In c (js s).
Proof.
  unfold js. intros H I. apply in_map_iff in I. destruct I as (a & E & Ha).
  rewrite forallb_forall in H. specialize (H a Ha).
  rewrite E, Z.eqb_refl in H. discriminate.
Qed.

(** Decimal numerals hold digits and at most a sign. *)
Lemma decimal_chars z c : In c (decimal z) -> c = 45 \/ 48 <= c <= 57.
Proof.
  unfold decimal, js, NilZero.string_of_int.
  assert (U : forall u c, In c (map (fun a => Z.of_nat (nat_of_ascii a))
                                 (list_ascii_of_string (NilEmpty.string_of_uint u)))
                          -> 48 <= c <= 57).
  { induction u; cbn; intros k Hk; try contradiction;
      (destruct Hk as [<-|Hk]; [lia | now apply IHu]). }
  assert (U0 : forall u c, In c (map (fun a => Z.of_nat (nat_of_ascii a))
                                 (list_ascii_of_string (NilZero.string_of_uint u)))
                          -> 48 <= c <= 57).
  { intros u k. destruct u; try apply U. cbn. intros [<-|[]]. lia. }
  destruct (Z.to_int z) as [u|u]; cbn [list_ascii_of_string map].
  - intros H. right. now apply U0 in H.
  - intros [<-|H]; [left; reflexivity | right; now apply U0 in H].
Qed.

Lemma ToString_no_dollar n : ~ In DOLLAR (ToString n).
Proof.
  destruct n as [z|]; cbn [ToString].
  - intros H. apply decimal_chars in H. unfold DOLLAR in H. lia.
  - now apply not_in_js.
Qed.

(** A character is absent from a concatenation of literals and of strings
    known to lack it. *)
Ltac absent :=
  repeat first [ assumption
               | apply not_in_app
               | apply ToString_no_dollar
               | unfold baseUrl; apply not_in_js; reflexivity ].

Lemma derivedPath_no_dollar request :
  ~ In DOLLAR (eventName request) -> ~ In DOLLAR (derivedPath request).
Proof. intros H. unfold derivedPath. absent. Qed.

(** For a destination named [owner/repo] in plain characters, and an event
    name without [$], the target is the contents endpoint of that
    repository at the derived path. *)
Lemma targetUrl_owner_repo request p owner repo :
  applicationName p = owner ++ js "/" ++ repo ->
  plain owner -> plain repo -> ~ In DOLLAR (eventName request) ->
  targetUrl request p
  = baseUrl ++ js "repos/" ++ owner ++ js "/" ++ repo ++ js "/contents/"
      ++ derivedPath request.
Proof.
  intros Hn (Ho1 & Ho2 & Ho3) (Hr1 & Hr2 & Hr3) He.
  unfold targetUrl. rewrite Hn, split_owner_repo by assumption.
  cbn [nth_error ToString_opt].
  change apiUrl with
    ((baseUrl ++ js "repos/") ++ js "{owner}" ++ js "/{repo}/contents/{path}").
  change (js "{owner}") with (123 :: js "owner}").
  rewrite replace_first; [| absent | exact Ho2].
  replace ((baseUrl ++ js "repos/") ++ owner ++ js "/{repo}/contents/{path}")
    with ((baseUrl ++ js "repos/" ++ owner ++ js "/") ++ js "{repo}"
            ++ js "/contents/{path}")
    by (rewrite <- !app_assoc; reflexivity).
  change (js "{repo}") with (123 :: js "repo}").
  rewrite replace_first; [| absent | exact Hr2].
  replace ((baseUrl ++ js "repos/" ++ owner ++ js "/") ++ repo
             ++ js "/contents/{path}")
    with ((baseUrl ++ js "repos/" ++ owner ++ js "/" ++ repo ++ js "/contents/")
            ++ js "{path}" ++ [])
    by (rewrite <- !app_assoc; reflexivity).
  change (js "{path}") with (123 :: js "path}").
  rewrite replace_first; [| absent | now apply derivedPath_no_dollar].
  rewrite app_nil_r, <- !app_assoc. reflexivity.
Qed.

(** ** The dispatch *)

Lemma requests_app tr tr' : requests (tr ++ tr') = requests tr ++ requests tr'.
Proof. unfold requests. now rewrite flat_map_app. Qed.

Lemma errors_app tr tr' : errors (tr ++ tr') = errors tr ++ errors tr'.
Proof. unfold errors. now rewrite flat_map_app. Qed.

Lemma requests_issued request info dests :
  requests (map (fun p => Fetch (targetUrl request p) (fetch_init info p)) dests)
  = map (request_for request info) dests.
Proof. induction dests as [|p ps IH]; [reflexivity|]. cbn. now rewrite <- IH. Qed.

Lemma errors_issued request info dests :
  errors (map (fun p => Fetch (targetUrl request p) (fetch_init info p)) dests) = [].
Proof. induction dests as [|p ps IH]; [reflexivity|]. exact IH. Qed.

Lemma fan_out_eq net request info dests promises :
  fan_out net request info dests promises =
  (map (fun p => Fetch (targetUrl request p) (fetch_init info p)) dests,
   Normal (promises
             ++ promises_from net (List.length promises)
                  (map (request_for request info) dests))).
Proof.
  revert promises. induction dests as [|p ps IH]; intros promises.
  - cbn. now rewrite app_nil_r.
  - cbn [fan_out]. unfold fetch, bind at 1. rewrite IH.
    cbn [map promises_from request_for app]. rewrite <- app_assoc.
    rewrite length_app. cbn [List.length app]. rewrite Nat.add_1_r.
    reflexivity.
Qed.

(** [sendRequest] once the destinations are known to be there. *)
Lemma sendRequest_built this net request p ps info :
  arrayProperties this = Some (p :: ps) ->
  requestInfo request = ret info ->
  sendRequest this net request =
  let reqs := map (request_for request info) (p :: ps) in
  let (tr, c) := aggregate (REQUEST_TIMEOUT this) (promises_from net 0 reqs) in
  (entry_log request
     :: map (fun p => Fetch (targetUrl request p) (fetch_init info p)) (p :: ps)
     ++ tr, c).
Proof.
  intros Hd Hi. unfold sendRequest. rewrite Hd, Hi.
  change (entry_log request
            :: map (fun p0 => Fetch (targetUrl request p0) (fetch_init info p0))
                 (p :: ps)) with
    ([entry_log request]
       ++ map (fun p0 => Fetch (targetUrl request p0) (fetch_init info p0))
            (p :: ps)).
  change (bind (debugLog ?t None) ?k) with
    (bind ([entry_log request], Normal tt)
       (fun _ => info0 <- ret info ;;
                 promises <- fan_out net request info0 (p :: ps) [] ;;
                 aggregate (REQUEST_TIMEOUT this) promises)).
  unfold bind at 1. unfold ret at 1. unfold bind at 1.
  unfold bind at 1. rewrite fan_out_eq. cbn [app List.length]. cbv zeta.
  destruct (aggregate _ _) as [tr c]. cbn [app]. reflexivity.
Qed.

Lemma sendRequest_not_built this net request p ps e :
  arrayProperties this = Some (p :: ps) ->
  requestInfo request = throw e ->
  sendRequest this net request = ([entry_log request], Throw e).
Proof.
  intros Hd Hi. unfold sendRequest. rewrite Hd, Hi. reflexivity.
Qed.

Lemma requestInfo_cases request :
  (exists info, requestInfo request = ret info /\ method info = js "PUT")
  \/ requestInfo request = throw InvalidCharacterError.
Proof.
  unfold requestInfo. destruct (btoa _); [left|right]; eauto.
Qed.

(** *** [Promise.all] and the timeout *)

Lemma Promise_all_in_time timeout promises responses :
  Forall2 (in_time timeout) promises responses ->
  exists t, Promise_all promises = Fulfilled t responses /\ (t <= timeout)%nat.
Proof.
  induction 1 as [|pr r prs rs (t & -> & Ht) _ (t' & IH & Ht')].
  - exists 0%nat. split; [reflexivity|lia].
  - exists (Nat.max t t'). cbn [Promise_all]. rewrite IH. split; [reflexivity|lia].
Qed.

Lemma Promise_all_fulfilled promises t responses :
  Promise_all promises = Fulfilled t responses ->
  Forall2 (in_time t) promises responses.
Proof.
  revert t responses. induction promises as [|pr prs IH]; intros t responses H.
  - cbn in H. injection H as <- <-. constructor.
  - cbn [Promise_all] in H.
    destruct pr as [t1 r1|t1 e1|]; destruct (Promise_all prs) as [t2 rs|t2 e2|] eqn:E;
      try discriminate.
    + injection H as <- <-. constructor.
      * exists t1. split; [reflexivity|lia].
      * eapply Forall2_impl; [|apply IH; reflexivity].
        intros pr r (t' & -> & Ht'). exists t'. split; [reflexivity|lia].
    + destruct (t1 <=? t2)%nat; discriminate.
Qed.

Lemma timeoutPromise_cases {A} timeout (p : promise A) :
  (exists t v, p = Fulfilled t v /\ (t <= timeout)%nat /\ timeoutPromise timeout p = ret v)
  \/ (exists e, timeoutPromise timeout p = throw e).
Proof.
  destruct p as [t v|t e|]; cbn.
  - destruct (Nat.leb_spec t timeout); [left|right]; eauto 6.
  - right. destruct (t <=? timeout)%nat; eauto.
  - right. eauto.
Qed.

(** *** The scan of the responses *)

Lemma scan_all_200 responses :
  Forall is_200 responses -> scan responses = ret None.
Proof.
  induction 1 as [|r rs H _ IH]; [reflexivity|].
  cbn [scan]. unfold is_200 in H. rewrite H. exact IH.
Qed.

Lemma scan_first_offender before bad after :
  Forall is_200 before -> ~ is_200 bad ->
  scan (before ++ bad :: after) =
  ([DebugLog (js "Error in " ++ url bad ++ js ".") (Some (js "error"))],
   Normal (Some ERROR_OTHER)).
Proof.
  intros Hb Hbad. induction Hb as [|r rs H _ IH].
  - cbn [app scan]. destruct (Z.eqb_spec (status bad) 200); [contradiction|].
    reflexivity.
  - cbn [app scan]. unfold is_200 in H. rewrite H. exact IH.
Qed.

(** A list with an element that is not a 200 splits at the first one. *)
Lemma first_offender responses :
  Exists (fun r => ~ is_200 r) responses ->
  exists before bad after,
    responses = before ++ bad :: after /\ Forall is_200 before /\ ~ is_200 bad.
Proof.
  induction responses as [|r rs IH]; intros H; [inversion H|].
  destruct (Z.eq_dec (status r) 200) as [E|N].
  - inversion H as [? ? H1|? ? H1]; subst; [contradiction|].
    destruct (IH H1) as (before & bad & after & -> & Hb & Hbad).
    exists (r :: before), bad, after. repeat split; auto.
  - exists [], r, rs. repeat split; auto.
Qed.

(** *** The three ways the aggregation ends *)

Lemma aggregate_ok timeout promises responses :
  Forall2 (in_time timeout) promises responses ->
  Forall is_200 responses ->
  aggregate timeout promises = ([], Normal RESULT_OK).
Proof.
  intros Hp Hr. destruct (Promise_all_in_time _ _ _ Hp) as (t & E & Ht).
  unfold aggregate. rewrite E. cbn [timeoutPromise].
  apply Nat.leb_le in Ht. rewrite Ht.
  unfold ret at 1. unfold bind at 2. rewrite (scan_all_200 _ Hr). reflexivity.
Qed.

Lemma aggregate_status timeout promises before bad after :
  Forall2 (in_time timeout) promises (before ++ bad :: after) ->
  Forall is_200 before -> ~ is_200 bad ->
  aggregate timeout promises =
  ([DebugLog (js "Error in " ++ url bad ++ js ".") (Some (js "error"))],
   Normal ERROR_OTHER).
Proof.
  intros Hp Hb Hbad. destruct (Promise_all_in_time _ _ _ Hp) as (t & E & Ht).
  unfold aggregate. rewrite E. cbn [timeoutPromise].
  apply Nat.leb_le in Ht. rewrite Ht.
  unfold ret at 1. unfold bind at 2.
  rewrite (scan_first_offender _ _ _ Hb Hbad). reflexivity.
Qed.

Lemma aggregate_fault timeout promises e :
  timeoutPromise timeout (Promise_all promises) = throw e ->
  aggregate timeout promises =
  ([DebugLog (js "Error while sending request") (Some (js "error"))],
   Normal ERROR_OTHER).
Proof. intros E. unfold aggregate. rewrite E. reflexivity. Qed.

(** The aggregation always returns a result: nothing is thrown past it,
    and it sends nothing. *)
Lemma aggregate_returns timeout promises :
  exists tr r, aggregate timeout promises = (tr, Normal r) /\ requests tr = [].
Proof.
  destruct (timeoutPromise_cases timeout (Promise_all promises))
    as [(t & rs & _ & _ & E)|(e & E)].
  - unfold aggregate. rewrite E. unfold ret at 1. unfold bind at 2.
    assert (S : exists tr r, scan rs = (tr, Normal r) /\ requests tr = []).
    { clear. induction rs as [|r rs IH]; [eexists _, _; split; reflexivity|].
      cbn [scan]. destruct (negb _); [eexists _, _; split; reflexivity | exact IH]. }
    destruct S as (tr & r & -> & Htr). cbn [app].
    destruct r; eexists _, _; (split; [reflexivity|]);
      cbn [app]; rewrite ?app_nil_r; exact Htr.
  - rewrite (aggregate_fault _ _ _ E). eexists _, _; split; reflexivity.
Qed.

(** *** What a dispatch over configured destinations comes to *)

Lemma sendRequest_cases this net request p ps :
  arrayProperties this = Some (p :: ps) ->
  (requestInfo request = throw InvalidCharacterError
   /\ sendRequest this net request
      = ([entry_log request], Throw InvalidCharacterError))
  \/ (exists info tr r,
        requestInfo request = ret info
        /\ aggregate (REQUEST_TIMEOUT this)
             (promises_from net 0 (map (request_for request info) (p :: ps)))
           = (tr, Normal r)
        /\ requests tr = []
        /\ sendRequest this net request
           = (entry_log request
                :: map (fun q => Fetch (targetUrl request q) (fetch_init info q))
                     (p :: ps) ++ tr,
              Normal r)).
Proof.
  intros Hd. destruct (requestInfo_cases request) as [(info & Hi & _)|Hi].
  - right.
    destruct (aggregate_returns (REQUEST_TIMEOUT this)
                (promises_from net 0 (map (request_for request info) (p :: ps))))
      as (tr & r & Ha & Htr).
    exists info, tr, r. repeat split; try assumption.
    rewrite (sendRequest_built _ _ _ _ _ _ Hd Hi). cbv zeta. rewrite Ha.
    reflexivity.
  - left. split; [assumption|]. now apply sendRequest_not_built with p ps.
Qed.

(** When one request per destination was sent, the body had been built and
    the requests are the destinations' ones, in order. *)
Lemma sendRequest_sent this net request dests :
  arrayProperties this = Some dests -> dests <> [] ->
  List.length (sent (sendRequest this net request)) = List.length dests ->
  exists info tr r,
    requestInfo request = ret info
    /\ sent (sendRequest this net request) = map (request_for request info) dests
    /\ aggregate (REQUEST_TIMEOUT this)
         (promises_from net 0 (sent (sendRequest this net request)))
       = (tr, Normal r)
    /\ sendRequest this net request
       = (entry_log request
            :: map (fun q => Fetch (targetUrl request q) (fetch_init info q)) dests
            ++ tr,
          Normal r).
Proof.
  intros Hd Hne Hlen. destruct dests as [|p ps]; [contradiction|].
  destruct (sendRequest_cases this net request p ps Hd)
    as [(_ & E)|(info & tr & r & Hi & Ha & Htr & E)].
  - rewrite E in Hlen. discriminate.
  - assert (S : sent (sendRequest this net request)
                = map (request_for request info) (p :: ps)).
    { rewrite E. unfold sent, trace. cbn [fst].
      change (entry_log request :: ?l) with ([entry_log request] ++ l).
      rewrite !requests_app, requests_issued, Htr, app_nil_r. reflexivity. }
    exists info, tr, r. rewrite S. auto.
Qed.

Lemma errors_dispatch request info dests tr :
  errors (entry_log request
            :: map (fun q => Fetch (targetUrl request q) (fetch_init info q)) dests
            ++ tr)
  = errors tr.
Proof.
  change (entry_log request :: ?l) with ([entry_log request] ++ l).
  rewrite !errors_app, errors_issued. reflexivity.
Qed.

Lemma fault_thrown timeout promises :
  joined_wait_exceeds timeout promises \/ Exists rejected promises ->
  exists e, timeoutPromise timeout (Promise_all promises) = throw e.
Proof.
  intros H.
  destruct (timeoutPromise_cases timeout (Promise_all promises))
    as [(t & rs & E & Ht & _)|F]; [exfalso|exact F].
  destruct H as [H|H].
  - unfold joined_wait_exceeds in H. rewrite E in H. lia.
  - apply Promise_all_fulfilled in E.
    apply Exists_exists in H. destruct H as (pr & Hin & t' & e & ->).
    clear Ht. induction E as [|pr r prs rs (t1 & E1 & _) _ IH]; [inversion Hin|].
    destruct Hin as [Heq|Hin]; [congruence|auto].
Qed.


Lemma sendRequest_unconfigured this net request :
  arrayProperties this = None \/ arrayProperties this = Some [] ->
  sendRequest this net request = ([], Normal ERROR_AUTH).
Proof. intros [H|H]; unfold sendRequest; rewrite H; reflexivity. Qed.

(** A dispatch that throws has thrown [btoa]'s error before sending
    anything. *)
Lemma sendRequest_throws this net request e :
  result (sendRequest this net request) = Throw e ->
  e = InvalidCharacterError /\ sent (sendRequest this net request) = [].
Proof.
  intros He. destruct (arrayProperties this) as [[|p ps]|] eqn:Hd.
  - rewrite sendRequest_unconfigured in He by auto. discriminate.
  - destruct (sendRequest_cases this net request p ps Hd)
      as [(_ & E)|(info & tr & r & _ & _ & _ & E)]; rewrite E in He |- *.
    + injection He as <-. split; reflexivity.
    + discriminate.
  - rewrite sendRequest_unconfigured in He by auto. discriminate.
Qed.

(** A dispatch whose event holds byte strings only returns a result. *)
Lemma sendRequest_returns this net request :
  json_latin1 (request_json request) = true ->
  exists tr r, sendRequest this net request = (tr, Normal r).
Proof.
  intros H. destruct (arrayProperties this) as [[|p ps]|] eqn:Hd.
  - rewrite sendRequest_unconfigured by auto. eauto.
  - destruct (sendRequest_cases this net request p ps Hd)
      as [(Hi & _)|(info & tr & r & _ & _ & _ & E)]; [|eauto].
    unfold requestInfo in Hi. rewrite btoa_JSON_stringify in Hi by exact H.
    discriminate.
  - rewrite sendRequest_unconfigured by auto. eauto.
Qed.

(** ** The outcome of a dispatch *)

(** C1: with no destination configured ([arrayProperties] undefined or
    empty) [sendRequest] returns [ERROR_AUTH] at once, whatever the request:
    it logs nothing, builds no body and sends nothing (the trace of events
    is empty); so do the four single-event operations, [scrobble] returns
    [ERROR_AUTH] once per song, and [getSession] fails on the same check. *)
Theorem sendRequest_without_destinations this net request :
  arrayProperties this = None \/ arrayProperties this = Some [] ->
  sendRequest this net request = ([], Normal ERROR_AUTH)
  /\ sent (sendRequest this net request) = []
  /\ getSession this = ([], Throw (Error (js "")))
  /\ (forall h s,
        sendNowPlaying this h s = ([], Normal ERROR_AUTH)
        /\ sendPaused this h s = ([], Normal ERROR_AUTH)
        /\ sendResumedPlaying this h s = ([], Normal ERROR_AUTH))
  /\ (forall h s isLoved, toggleLove this h s isLoved = ([], Normal ERROR_AUTH))
  /\ (forall h songs currentlyPlaying,
        scrobble this h songs currentlyPlaying
        = ([], Normal (repeat ERROR_AUTH (List.length songs)))).
Proof.
  intros H. rewrite (sendRequest_unconfigured _ _ _ H).
  split; [reflexivity|]. split; [reflexivity|]. split.
  { destruct H as [H|H]; unfold getSession; rewrite H; reflexivity. }
  unfold sendNowPlaying, sendPaused, sendResumedPlaying, toggleLove, scrobble.
  repeat split; intros; rewrite ?(sendRequest_unconfigured _ _ _ H);
    reflexivity.
Qed.

Lemma sendRequest_without_destinations_witness :
  sendRequest (mkScrobbler (Some []) 1000) Sample.all_ok
    Sample.nowplaying_cyrillic
  = ([], Normal ERROR_AUTH).
Proof.
  apply (sendRequest_without_destinations (mkScrobbler (Some []) 1000)
           Sample.all_ok Sample.nowplaying_cyrillic).
  right. reflexivity.
Defined.

(** C2: over a non-empty destination list, when every destination's
    response arrived within the timeout with status 200 (one request per
    destination was sent, and each was fulfilled in time by such a
    response), [sendRequest] returns [RESULT_OK]. *)
Theorem sendRequest_all_200 this net request dests :
  arrayProperties this = Some dests -> dests <> [] ->
  List.length (sent (sendRequest this net request)) = List.length dests ->
  Forall (fun pr => exists r, in_time (REQUEST_TIMEOUT this) pr r /\ is_200 r)
    (promises_from net 0 (sent (sendRequest this net request))) ->
  result (sendRequest this net request) = Normal RESULT_OK.
Proof.
  intros Hd Hne Hlen Hall.
  destruct (sendRequest_sent this net request dests Hd Hne Hlen)
    as (info & tr & r & _ & _ & Ha & E).
  assert (R : exists rs,
             Forall2 (in_time (REQUEST_TIMEOUT this))
               (promises_from net 0 (sent (sendRequest this net request))) rs
             /\ Forall is_200 rs).
  { clear - Hall. induction Hall as [|pr prs (r & Hr & H2) _ (rs & IH1 & IH2)].
    - exists []. split; constructor.
    - exists (r :: rs). split; constructor; assumption. }
  destruct R as (rs & R1 & R2).
  rewrite (aggregate_ok _ _ _ R1 R2) in Ha. injection Ha as <- <-.
  rewrite E. reflexivity.
Qed.

Lemma sendRequest_all_200_witness :
  result (sendRequest Sample.two_repos Sample.all_ok Sample.nowplaying_ascii)
  = Normal RESULT_OK.
Proof.
  eapply (sendRequest_all_200 Sample.two_repos Sample.all_ok
            Sample.nowplaying_ascii).
  - reflexivity.
  - discriminate.
  - reflexivity.
  - vm_compute.
    repeat constructor; eexists; (split; [eexists; split; [reflexivity|lia]
                                         | reflexivity]).
Defined.

(** C3: over a non-empty destination list, when every destination's
    response arrived within the timeout (one request per destination was
    sent, and each was fulfilled in time), a response whose status is not
    200 makes [sendRequest] return [ERROR_OTHER], however many of the others
    are 200; the scan ends at the first such response, the only one the log
    reports. *)
Theorem sendRequest_some_not_200 this net request dests responses :
  arrayProperties this = Some dests -> dests <> [] ->
  List.length (sent (sendRequest this net request)) = List.length dests ->
  Forall2 (in_time (REQUEST_TIMEOUT this))
    (promises_from net 0 (sent (sendRequest this net request))) responses ->
  Exists (fun r => ~ is_200 r) responses ->
  result (sendRequest this net request) = Normal ERROR_OTHER
  /\ exists before bad after,
       responses = before ++ bad :: after
       /\ Forall is_200 before /\ ~ is_200 bad
       /\ errors (trace (sendRequest this net request))
          = [js "Error in " ++ url bad ++ js "."].
Proof.
  intros Hd Hne Hlen Hall Hbad.
  destruct (sendRequest_sent this net request dests Hd Hne Hlen)
    as (info & tr & r & _ & _ & Ha & E).
  destruct (first_offender responses Hbad)
    as (before & bad & after & -> & Hb & Hn).
  rewrite (aggregate_status _ _ _ _ _ Hall Hb Hn) in Ha. injection Ha as <- <-.
  split; [rewrite E; reflexivity|].
  exists before, bad, after. repeat split; try assumption.
  rewrite E. unfold trace. cbn [fst]. rewrite errors_dispatch. reflexivity.
Qed.

Lemma sendRequest_some_not_200_witness :
  result (sendRequest Sample.two_repos Sample.second_404 Sample.nowplaying_ascii)
  = Normal ERROR_OTHER.
Proof.
  eapply (sendRequest_some_not_200 Sample.two_repos Sample.second_404
            Sample.nowplaying_ascii).
  - reflexivity.
  - discriminate.
  - reflexivity.
  - vm_compute.
    repeat (constructor; [eexists; split; [reflexivity|lia]|]). constructor.
  - apply Exists_cons_tl, Exists_cons_hd. vm_compute. discriminate.
Defined.

(** C4: over a non-empty destination list, when one request per destination
    was sent and the joined wait exceeds the timeout, or a request is
    rejected, the fault is caught and [sendRequest] returns [ERROR_OTHER];
    and whatever the network does, no network or timeout error leaves
    [sendRequest]: the only error it can throw is the one of [btoa], raised
    before anything is sent. *)
Theorem sendRequest_catches_faults this net request :
  (forall dests,
      arrayProperties this = Some dests -> dests <> [] ->
      List.length (sent (sendRequest this net request)) = List.length dests ->
      joined_wait_exceeds (REQUEST_TIMEOUT this)
        (promises_from net 0 (sent (sendRequest this net request)))
      \/ Exists rejected
           (promises_from net 0 (sent (sendRequest this net request))) ->
      result (sendRequest this net request) = Normal ERROR_OTHER
      /\ errors (trace (sendRequest this net request))
         = [js "Error while sending request"])
  /\ (forall e,
         result (sendRequest this net request) = Throw e ->
         e <> NetworkError /\ e <> TimeoutError
         /\ sent (sendRequest this net request) = []).
Proof.
  split.
  - intros dests Hd Hne Hlen Hfault.
    destruct (sendRequest_sent this net request dests Hd Hne Hlen)
      as (info & tr & r & _ & _ & Ha & E).
    destruct (fault_thrown _ _ Hfault) as (e & Hthrow).
    rewrite (aggregate_fault _ _ _ Hthrow) in Ha. injection Ha as <- <-.
    split; [rewrite E; reflexivity|].
    rewrite E. unfold trace. cbn [fst]. rewrite errors_dispatch. reflexivity.
  - intros e He. destruct (sendRequest_throws _ _ _ _ He) as [-> Hs].
    repeat split; [discriminate | discriminate | exact Hs].
Qed.

Lemma sendRequest_catches_faults_witness :
  result (sendRequest Sample.two_repos Sample.second_hangs
            Sample.nowplaying_ascii) = Normal ERROR_OTHER
  /\ result (sendRequest Sample.two_repos Sample.first_fails
               Sample.nowplaying_ascii) = Normal ERROR_OTHER.
Proof.
  split.
  - eapply (proj1 (sendRequest_catches_faults Sample.two_repos
                     Sample.second_hangs Sample.nowplaying_ascii)).
    + reflexivity.
    + discriminate.
    + reflexivity.
    + left. vm_compute. exact I.
  - eapply (proj1 (sendRequest_catches_faults Sample.two_repos
                     Sample.first_fails Sample.nowplaying_ascii)).
    + reflexivity.
    + discriminate.
    + reflexivity.
    + right. apply Exists_cons_hd. vm_compute. eexists _, _. reflexivity.
Defined.

(** *** The requests of a dispatch *)

(** Over configured destinations, once [btoa] has accepted the serialized
    event, one [PUT] per destination is sent, in the order of the list: all
    carry the same body, built from the event alone, and differ in the
    target and in the [Authorization] header only. *)
Lemma sendRequest_requests this net request dests content :
  arrayProperties this = Some dests -> dests <> [] ->
  btoa (JSON_stringify (request_json request)) = Some content ->
  sent (sendRequest this net request)
  = map (fun p =>
           (targetUrl request p,
            mkRequestInit (js "PUT")
              [(js "Content-Type", js "application/json");
               (js "Authorization", js "Bearer " ++ userApiUrl p)]
              (JSON_stringify (body_json request content))))
      dests.
Proof.
  intros Hd Hne Hc. destruct dests as [|p ps]; [contradiction|].
  destruct (sendRequest_cases this net request p ps Hd)
    as [(Hi & _)|(info & tr & r & Hi & _ & Htr & E)];
    unfold requestInfo in Hi; rewrite Hc in Hi; [discriminate|].
  injection Hi as <-. rewrite E. unfold sent, trace. cbn [fst].
  change (entry_log request :: ?l) with ([entry_log request] ++ l).
  rewrite !requests_app, requests_issued, Htr, app_nil_r. reflexivity.
Qed.

(** The [content] member decodes to the serialized event. *)
Lemma content_decodes request info :
  requestInfo request = ret info ->
  exists content,
    body info = JSON_stringify (body_json request content)
    /\ base64_decode content = Some (JSON_stringify (request_json request)).
Proof.
  unfold requestInfo.
  destruct (btoa (JSON_stringify (request_json request))) as [content|] eqn:E;
    [|discriminate].
  intros [= <-]. exists content. split; [reflexivity|].
  now apply base64_decode_btoa.
Qed.

(** C6 (defect): over two configured destinations, a request whose song is
    written in Cyrillic gets no body at all: [btoa] throws on the serialized
    event, [sendRequest] ends with that error after its first log line, and
    no destination is sent anything, where the spec has one body sent to
    every destination. *)
Theorem sendRequest_sends_nothing :
  arrayProperties Sample.two_repos
  = Some [mkProps (js "alice/music") (js "token-a");
          mkProps (js "bob/log") (js "token-b")]
  /\ sendRequest Sample.two_repos Sample.all_ok Sample.nowplaying_cyrillic
     = ([entry_log Sample.nowplaying_cyrillic], Throw InvalidCharacterError)
  /\ sent (sendRequest Sample.two_repos Sample.all_ok
             Sample.nowplaying_cyrillic) = [].
Proof. repeat split; vm_compute; reflexivity. Qed.

(** C7 (defect): for a request whose song is written in Cyrillic there is
    no [content] member to decode: the serialized event holds code units
    above 255, [btoa] rejects it and evaluating [requestInfo] throws, where
    the spec has the content decode to the event for every request. *)
Theorem requestInfo_throws :
  is_latin1 (JSON_stringify (request_json Sample.nowplaying_cyrillic)) = false
  /\ btoa (JSON_stringify (request_json Sample.nowplaying_cyrillic)) = None
  /\ requestInfo Sample.nowplaying_cyrillic = throw InvalidCharacterError.
Proof. repeat split; vm_compute; reflexivity. Qed.

(** *** [scrobble] *)

(** [scrobble] is one dispatch: it performs the events of one [sendRequest]
    and hands its outcome out once per song. *)
Lemma scrobble_replicates this h songs currentlyPlaying tr res :
  sendRequest this (fetch_outcome h)
    (mkRequest (js "scrobble") (Date_now h)
       (mkData (nth_error songs 0) (Some songs) None (Some currentlyPlaying)))
  = (tr, Normal res) ->
  scrobble this h songs currentlyPlaying
  = (tr, Normal (repeat res (List.length songs))).
Proof.
  intros E. unfold scrobble. rewrite E. cbn [bind ret].
  now rewrite app_nil_r.
Qed.

(** C8 (defect): [scrobble] of one song written in Cyrillic, over two
    configured destinations, returns no array: the error of [btoa] thrown
    in its dispatch leaves [scrobble] too, and nothing is sent, where the
    spec has an array of one outcome returned for every non-empty list. *)
Theorem scrobble_throws :
  scrobble Sample.two_repos (mkHost Sample.all_ok Sample.example_time)
    [Sample.cyrillic_song] true
  = ([entry_log
        (mkRequest (js "scrobble") Sample.example_time
           (mkData (Some Sample.cyrillic_song) (Some [Sample.cyrillic_song])
              None (Some true)))],
     Throw InvalidCharacterError).
Proof. vm_compute. reflexivity. Qed.

(** C9: [getSession] returns the session [webhook] exactly when at least
    one destination is configured; with none ([arrayProperties] undefined
    or empty) it is rejected with an error; either way it performs no
    event. *)
Theorem getSession_webhook this :
  (getSession this = ([], Normal (mkSession (js "webhook")))
   <-> exists p ps, arrayProperties this = Some (p :: ps))
  /\ (arrayProperties this = None \/ arrayProperties this = Some [] ->
      getSession this = ([], Throw (Error (js "")))).
Proof.
  unfold getSession. destruct (arrayProperties this) as [[|p ps]|]; split.
  - split; [discriminate | intros (p & ps & [=])].
  - reflexivity.
  - split; [eauto | reflexivity].
  - intros [[=]|[=]].
  - split; [discriminate | intros (p & ps & [=])].
  - reflexivity.
Qed.

(** C10: [scrobble] of an empty list over configured destinations still
    performs one dispatch, whose request has no [song] ([songs[0]] is
    undefined) and an empty [songs]: one request per destination is sent
    and the dispatch returns an outcome, yet [scrobble] returns the empty
    array, whatever that outcome was. *)
Theorem scrobble_empty this h currentlyPlaying p ps :
  arrayProperties this = Some (p :: ps) ->
  exists tr res,
    sendRequest this (fetch_outcome h)
      (mkRequest (js "scrobble") (Date_now h)
         (mkData None (Some []) None (Some currentlyPlaying)))
    = (tr, Normal res)
    /\ List.length (requests tr) = List.length (p :: ps)
    /\ scrobble this h [] currentlyPlaying = (tr, Normal []).
Proof.
  intros Hd.
  set (request := mkRequest (js "scrobble") (Date_now h)
                    (mkData None (Some []) None (Some currentlyPlaying))).
  assert (L : json_latin1 (request_json request) = true) by reflexivity.
  destruct (sendRequest_cases this (fetch_outcome h) request p ps Hd)
    as [(Hi & _)|(info & tr & r & Hi & _ & Htr & E)].
  - unfold requestInfo in Hi. rewrite btoa_JSON_stringify in Hi by exact L.
    discriminate.
  - exists (entry_log request
              :: map (fun q => Fetch (targetUrl request q) (fetch_init info q))
                   (p :: ps) ++ tr), r.
    split; [exact E|]. split.
    + change (entry_log request :: ?l) with ([entry_log request] ++ l).
      rewrite !requests_app, requests_issued, Htr, app_nil_r.
      cbn [requests entry_log flat_map app]. now rewrite length_map.
    + exact (scrobble_replicates this h [] currentlyPlaying _ r E).
Qed.

Lemma scrobble_empty_witness :
  scrobble Sample.two_repos (mkHost Sample.second_404 Sample.example_time)
    [] true
  = (fst (sendRequest Sample.two_repos Sample.second_404
            (mkRequest (js "scrobble") Sample.example_time
               (mkData None (Some []) None (Some true)))),
     Normal []).
Proof.
  destruct (scrobble_empty Sample.two_repos
              (mkHost Sample.second_404 Sample.example_time) true
              (mkProps (js "alice/music") (js "token-a"))
              [mkProps (js "bob/log") (js "token-b")] eq_refl)
    as (tr & res & E & _ & S).
  cbn [fetch_outcome Date_now] in E. rewrite E. exact S.
Defined.

(* ================================================================== *)
(** * Part III: further properties of the class *)
(* ================================================================== *)

(** ** The remaining members *)

(** The members of the class that take no part in a dispatch; each returns
    a constant. *)
Module Stubs.

Definition getBaseProfileUrl : jsstring := js "".
Definition getLabel : jsstring := js "GitHub".
Definition getStatusUrl : jsstring := js "".
Definition getStorageName : jsstring := js "GitHub".
Definition getAuthUrl : M jsstring := ret (js "").
Definition isReadyForGrantAccess : M bool := ret false.
Definition getProfileUrl : M jsstring := ret (js "").
Definition getUserDefinedArrayProperties : list jsstring :=
  [js "applicationName"; js "userApiUrl"].
Definition getSongInfo : M (list (jsstring * json)) := ret [].
Definition isLocalOnly : bool := true.

End Stubs.

(** ** The target of a request *)

(** The target is made of the first two pieces of the name only. *)
Lemma targetUrl_pieces request p q :
  nth_error (split SLASH (applicationName p)) 0
  = nth_error (split SLASH (applicationName q)) 0 ->
  nth_error (split SLASH (applicationName p)) 1
  = nth_error (split SLASH (applicationName q)) 1 ->
  targetUrl request p = targetUrl request q.
Proof. intros H0 H1. unfold targetUrl. now rewrite H0, H1. Qed.

(** X3: a destination name without a slash has no repository piece, and
    [replace] writes [undefined] in its place: for a plain name and an
    event name without [$], the request goes to
    [repos/<name>/undefined/contents/<path>]. *)
Theorem targetUrl_without_slash request p :
  plain (applicationName p) -> ~ In DOLLAR (eventName request) ->
  targetUrl request p
  = baseUrl ++ js "repos/" ++ applicationName p ++ js "/undefined/contents/"
      ++ derivedPath request.
Proof.
  intros (Hn1 & Hn2 & Hn3) He.
  unfold targetUrl. rewrite split_no_separator by exact Hn1.
  cbn [nth_error ToString_opt].
  change apiUrl with
    ((baseUrl ++ js "repos/") ++ js "{owner}" ++ js "/{repo}/contents/{path}").
  change (js "{owner}") with (123 :: js "owner}").
  rewrite replace_first; [| absent | exact Hn2].
  replace ((baseUrl ++ js "repos/") ++ applicationName p
             ++ js "/{repo}/contents/{path}")
    with ((baseUrl ++ js "repos/" ++ applicationName p ++ js "/")
            ++ js "{repo}" ++ js "/contents/{path}")
    by (rewrite <- !app_assoc; reflexivity).
  change (js "{repo}") with (123 :: js "repo}").
  rewrite replace_first; [| absent | now apply not_in_js].
  replace ((baseUrl ++ js "repos/" ++ applicationName p ++ js "/")
             ++ js "undefined" ++ js "/contents/{path}")
    with ((baseUrl ++ js "repos/" ++ applicationName p
             ++ js "/undefined/contents/") ++ js "{path}" ++ [])
    by (rewrite <- !app_assoc; reflexivity).
  change (js "{path}") with (123 :: js "path}").
  rewrite replace_first; [| absent | now apply derivedPath_no_dollar].
  rewrite app_nil_r, <- !app_assoc. reflexivity.
Qed.

Lemma targetUrl_without_slash_witness :
  targetUrl Sample.nowplaying_ascii (mkProps (js "alice") (js "token-a"))
  = baseUrl ++ js "repos/" ++ js "alice" ++ js "/undefined/contents/"
      ++ derivedPath Sample.nowplaying_ascii.
Proof.
  apply (targetUrl_without_slash Sample.nowplaying_ascii
           (mkProps (js "alice") (js "token-a"))).
  - repeat split; vm_compute; intuition discriminate.
  - vm_compute; intuition discriminate.
Defined.

(** Pieces of the destination name after the second are ignored: the name
    [owner/repo/rest] has the target of [owner/repo], whatever [rest] and
    the token are. *)
Lemma targetUrl_extra_segments request owner repo rest token token' :
  ~ In SLASH owner -> ~ In SLASH repo ->
  targetUrl request
    (mkProps (owner ++ js "/" ++ repo ++ js "/" ++ rest) token)
  = targetUrl request (mkProps (owner ++ js "/" ++ repo) token').
Proof.
  intros Ho Hr. apply targetUrl_pieces; cbn [applicationName].
  - change (js "/" ++ repo ++ js "/" ++ rest) with (SLASH :: repo ++ js "/" ++ rest).
    change (js "/" ++ repo) with (SLASH :: repo).
    rewrite !split_first by exact Ho. reflexivity.
  - change (js "/" ++ repo ++ js "/" ++ rest) with (SLASH :: repo ++ SLASH :: rest).
    change (js "/" ++ repo) with (SLASH :: repo).
    rewrite !split_first by assumption.
    rewrite (split_no_separator SLASH repo Hr). reflexivity.
Qed.

(** ** The stored path identifies the event *)

From Stdlib Require DecimalZ.

Lemma js_injective s s' : js s = js s' -> s = s'.
Proof.
  unfold js. intros H.
  rewrite <- (string_of_list_ascii_of_string s),
    <- (string_of_list_ascii_of_string s').
  f_equal. revert H.
  generalize (list_ascii_of_string s) as l, (list_ascii_of_string s') as l'.
  induction l as [|a l IH]; destruct l' as [|a' l']; cbn [map];
    intros H; try discriminate; [reflexivity|].
  injection H as Ha Hl. f_equal; [|now apply IH].
  apply Nat2Z.inj in Ha.
  rewrite <- (ascii_nat_embedding a), <- (ascii_nat_embedding a').
  now rewrite Ha.
Qed.

Lemma to_int_not_nil z : Z.to_int z <> Decimal.Pos Decimal.Nil
                         /\ Z.to_int z <> Decimal.Neg Decimal.Nil.
Proof.
  split; intros H; pose proof (DecimalZ.of_to z) as E; rewrite H in E;
    cbn in E; subst z; discriminate H.
Qed.

(** Different integers have different numerals. *)
Lemma decimal_injective z z' : decimal z = decimal z' -> z = z'.
Proof.
  unfold decimal. intros H. apply js_injective in H.
  apply DecimalZ.to_int_inj.
  assert (S : Some (Z.to_int z) = Some (Z.to_int z')).
  { rewrite <- (NilZero.isi (Z.to_int z)), <- (NilZero.isi (Z.to_int z'));
      try apply to_int_not_nil. now rewrite H. }
  now injection S.
Qed.

Definition digits (s : jsstring) : Prop := forall c, In c s -> 48 <= c <= 57.

Lemma string_of_uint_digits u :
  let s := js (NilZero.string_of_uint u) in s <> [] /\ digits s.
Proof.
  assert (U : forall v, digits (js (NilEmpty.string_of_uint v))).
  { unfold digits, js. induction v; cbn; intros k Hk; try contradiction;
      (destruct Hk as [<-|Hk]; [lia | now apply IHv]). }
  cbv zeta. destruct u; cbn [NilZero.string_of_uint];
    try (split; [discriminate | apply U]).
  split; [discriminate|]. intros c [<-|[]]. cbn. lia.
Qed.

(** A numeral is a run of digits, after a minus sign when negative. *)
Lemma decimal_shape z :
  (decimal z <> [] /\ digits (decimal z))
  \/ (exists ds, decimal z = 45 :: ds /\ ds <> [] /\ digits ds).
Proof.
  unfold decimal, NilZero.string_of_int.
  destruct (Z.to_int z) as [u|u].
  - left. apply string_of_uint_digits.
  - right. exists (js (NilZero.string_of_uint u)).
    split; [reflexivity|]. apply string_of_uint_digits.
Qed.

(** A text is cut at the first occurrence of a character in one way only. *)
Lemma cut_unique (c : Z) x y x' y' :
  x ++ c :: y = x' ++ c :: y' -> ~ In c x -> ~ In c x' -> x = x' /\ y = y'.
Proof.
  revert x'. induction x as [|a x IH]; intros [|a' x'] H Hx Hx'; cbn in H.
  - injection H as ->. auto.
  - injection H as <- _. exfalso. apply Hx'. now left.
  - injection H as -> _. exfalso. apply Hx. now left.
  - injection H as <- H.
    destruct (IH x' H) as [-> ->];
      [intros I; apply Hx; now right | intros I; apply Hx'; now right |].
    auto.
Qed.

Lemma decimal_no_slash z : ~ In 47 (decimal z).
Proof. intros H. apply decimal_chars in H. lia. Qed.

Lemma digits_no_minus s : digits s -> ~ In 45 s.
Proof. intros D H. apply D in H. lia. Qed.

(** A numeral followed by a hyphen is read back in one way only. *)
Lemma numeral_cut z z' rest rest' :
  decimal z ++ 45 :: rest = decimal z' ++ 45 :: rest' ->
  z = z' /\ rest = rest'.
Proof.
  intros H.
  destruct (decimal_shape z) as [(N & D)|(ds & E & N & D)];
    destruct (decimal_shape z') as [(N' & D')|(ds' & E' & N' & D')].
  - destruct (cut_unique 45 _ _ _ _ H) as [Hd Hr];
      auto using digits_no_minus.
    split; [now apply decimal_injective | exact Hr].
  - exfalso. rewrite E' in H. destruct (decimal z) as [|d s]; [now apply N|].
    cbn in H. injection H as Hd _. specialize (D d (or_introl eq_refl)). lia.
  - exfalso. rewrite E in H. destruct (decimal z') as [|d s]; [now apply N'|].
    cbn in H. injection H as Hd _. specialize (D' d (or_introl eq_refl)). lia.
  - assert (H' := H). rewrite E, E' in H'. cbn in H'. injection H' as H'.
    destruct (cut_unique 45 _ _ _ _ H') as [Hd Hr];
      auto using digits_no_minus.
    split; [|exact Hr]. apply decimal_injective. rewrite E, E'. now f_equal.
Qed.

(** Paths are equal only for equal fields. *)
Lemma path_of_injective y m d t name y' m' d' t' name' :
  path_of y m d t name = path_of y' m' d' t' name' ->
  t = t' /\ name = name'.
Proof.
  unfold path_of. intros H.
  change (js "/" ++ ?x) with (47 :: x) in H.
  destruct (cut_unique 47 _ _ _ _ H) as [_ H1]; try apply decimal_no_slash.
  destruct (cut_unique 47 _ _ _ _ H1) as [_ H2]; try apply decimal_no_slash.
  destruct (cut_unique 47 _ _ _ _ H2) as [_ H3]; try apply decimal_no_slash.
  change (js "-" ++ ?x) with (45 :: x) in H3.
  destruct (numeral_cut _ _ _ _ H3) as [Ht Hn].
  split; [exact Ht|]. now apply app_inv_tail in Hn.
Qed.

(** X10: within the range of a [Date], the stored path identifies the
    event: two requests with the same path have the same timestamp and the
    same event name, so events of different instants never share a path. *)
Theorem derivedPath_injective request request' :
  Z.abs (time request) <= maxTime -> Z.abs (time request') <= maxTime ->
  derivedPath request = derivedPath request' ->
  time request = time request' /\ eventName request = eventName request'.
Proof.
  intros Ht Ht' H. rewrite !derivedPath_valid in H by assumption.
  now apply path_of_injective in H.
Qed.

Lemma derivedPath_injective_witness :
  time Sample.nowplaying_ascii = time Sample.nowplaying_cyrillic
  /\ eventName Sample.nowplaying_ascii = eventName Sample.nowplaying_cyrillic.
Proof.
  apply (derivedPath_injective Sample.nowplaying_ascii
           Sample.nowplaying_cyrillic).
  - vm_compute. discriminate.
  - vm_compute. discriminate.
  - reflexivity.
Defined.

(** Outside the range the timestamp is lost: all such instants give the
    path of an invalid [Date]. *)
Lemma derivedPath_collision :
  derivedPath (mkRequest (js "paused") (maxTime + 1) (mkData None None None None))
  = derivedPath (mkRequest (js "paused") (maxTime + 2) (mkData None None None None)).
Proof. reflexivity. Qed.

(** ** Which events can be sent *)

(** [s] is one of the strings of the value: a member name or a leaf. *)
Inductive mentions : json -> jsstring -> Prop :=
| mentions_leaf s : mentions (JString s) s
| mentions_item items v s :
    In v items -> mentions v s -> mentions (JArray items) s
| mentions_key fields k v :
    In (k, v) fields -> mentions (JObject fields) k
| mentions_member fields k v s :
    In (k, v) fields -> mentions v s -> mentions (JObject fields) s.

(** A code unit above 255 that is not a surrogate: a character of the
    Basic Multilingual Plane outside Latin-1. *)
Definition wide (c : Z) : Prop :=
  255 < c /\ (c < 55296 \/ 57343 < c).

Lemma wide_not_surrogate c :
  wide c -> is_leading_surrogate c = false /\ is_trailing_surrogate c = false.
Proof.
  intros (H & [L|G]); unfold is_leading_surrogate, is_trailing_surrogate;
    split;
    first [ apply andb_false_intro1; apply Z.leb_gt; lia
          | apply andb_false_intro2; apply Z.leb_gt; lia ].
Qed.

Lemma quote_code_unit_wide c : wide c -> quote_code_unit c = [c].
Proof.
  intros (H & _). unfold quote_code_unit.
  repeat match goal with
         | |- context [?a =? ?b] => destruct (Z.eqb_spec a b); [lia|]
         end.
  destruct (Z.ltb_spec c 32); [lia | reflexivity].
Qed.

(** [JSON.stringify] copies a wide character as it is. *)
Lemma quote_chars_wide c s : wide c -> In c s -> In c (quote_chars s).
Proof.
  intros W.
  assert (G : forall n s, (List.length s <= n)%nat ->
                          In c s -> In c (quote_chars s)).
  { induction n as [|n IH]; intros [|a rest] Hl Hin; cbn in Hl;
      try contradiction; try lia.
    destruct (wide_not_surrogate c W) as [NL NT].
    cbn [quote_chars].
    destruct (is_leading_surrogate a) eqn:La.
    - assert (Hin' : In c rest)
        by (destruct Hin as [<-|Hin]; [congruence | exact Hin]).
      destruct rest as [|d rest']; [contradiction|].
      destruct (is_trailing_surrogate d) eqn:Td.
      + right. right. apply IH; [cbn in Hl; lia|].
        destruct Hin' as [<-|Hin']; [congruence | exact Hin'].
      + apply in_or_app. right. apply IH; [lia | exact Hin'].
    - destruct (is_trailing_surrogate a) eqn:Ta.
      + apply in_or_app. right. apply IH; [lia|].
        destruct Hin as [<-|Hin]; [congruence | exact Hin].
      + apply in_or_app. destruct Hin as [<-|Hin].
        * left. rewrite quote_code_unit_wide by exact W. now left.
        * right. apply IH; [lia | exact Hin]. }
  intros H. now apply (G (List.length s)).
Qed.

(** A surrogate pair is copied as it is, too. *)
Lemma quote_chars_pair hi lo before after :
  is_leading_surrogate hi = true -> is_trailing_surrogate lo = true ->
  In hi (quote_chars (before ++ hi :: lo :: after)).
Proof.
  intros Hhi Hlo.
  assert (NT : is_trailing_surrogate hi = false).
  { unfold is_leading_surrogate, is_trailing_surrogate in *.
    apply andb_prop in Hhi. destruct Hhi as [_ H]. apply Z.leb_le in H.
    apply andb_false_intro1. apply Z.leb_gt. lia. }
  assert (G : forall n before, (List.length before <= n)%nat ->
                In hi (quote_chars (before ++ hi :: lo :: after))).
  { induction n as [|n IH]; intros [|a rest] Hl; cbn in Hl; try lia;
      try (cbn [app quote_chars]; rewrite Hhi, Hlo; now left).
    cbn [app quote_chars].
    destruct (is_leading_surrogate a) eqn:La.
    - destruct rest as [|d rest']; cbn [app].
      + rewrite NT. apply in_or_app. right. apply (IH []). cbn. lia.
      + destruct (is_trailing_surrogate d) eqn:Td.
        * right. right. apply IH. cbn in Hl. lia.
        * apply in_or_app. right. apply (IH (d :: rest')). lia.
    - destruct (is_trailing_surrogate a); apply in_or_app; right;
        apply IH; lia. }
  now apply (G (List.length before)).
Qed.

(** A string with a character outside Latin-1: a wide code unit, or a
    surrogate pair (a character beyond the Basic Multilingual Plane). *)
Definition outside_latin1 (s : jsstring) : Prop :=
  (exists c, wide c /\ In c s)
  \/ (exists before hi lo after,
        s = before ++ hi :: lo :: after
        /\ is_leading_surrogate hi = true
        /\ is_trailing_surrogate lo = true).

Lemma quote_chars_outside_latin1 s :
  outside_latin1 s -> exists c, 255 < c /\ In c (quote_chars s).
Proof.
  intros [(c & W & Hc)|(before & hi & lo & after & -> & Hhi & Hlo)].
  - exists c. split; [apply W | now apply quote_chars_wide].
  - exists hi. split; [|now apply quote_chars_pair].
    unfold is_leading_surrogate in Hhi. apply andb_prop in Hhi.
    destruct Hhi as [H _]. apply Z.leb_le in H. lia.
Qed.

Lemma join_keeps (c : Z) sep x items :
  In x items -> In c x -> In c (join sep items).
Proof.
  intros Hx Hc. induction items as [|y l IH]; [contradiction|].
  cbn [join]. destruct Hx as [->|Hx].
  - destruct l; [exact Hc | apply in_or_app; now left].
  - destruct l as [|z l']; [contradiction|].
    apply in_or_app. right. apply in_or_app. right. now apply IH.
Qed.

Lemma wrap_keeps (c : Z) open close gap stepback indent x members :
  In x members -> In c x ->
  In c (wrap open close gap stepback indent members).
Proof.
  intros Hx Hc. unfold wrap. destruct members as [|m ms]; [contradiction|].
  destruct gap.
  - apply in_or_app. right. apply in_or_app. left.
    now apply join_keeps with x.
  - apply in_or_app. right. apply in_or_app. right.
    apply in_or_app. right. apply in_or_app. left.
    now apply join_keeps with x.
Qed.

(** What [JSON.stringify] writes for a string of a value is part of what
    it writes for the value. *)
Lemma serialize_keeps gap c v s :
  mentions v s -> In c (quote_chars s) ->
  forall indent, In c (serialize gap indent v).
Proof.
  intros M Hc.
  assert (Q : In c (QuoteJSONString s)).
  { unfold QuoteJSONString. apply in_or_app. right.
    apply in_or_app. now left. }
  clear Hc.
  induction M as [s|items v s Hv M IH|fields k v Hk
                 |fields k v s Hk M IH];
    intros indent; cbn [serialize].
  - exact Q.
  - apply wrap_keeps with (serialize gap (indent ++ gap) v).
    + now apply in_map.
    + now apply IH.
  - eapply wrap_keeps.
    + apply in_map_iff. exists (k, v). split; [reflexivity | exact Hk].
    + cbv beta iota. apply in_or_app. now left.
  - eapply wrap_keeps.
    + apply in_map_iff. exists (k, v). split; [reflexivity | exact Hk].
    + cbv beta iota. apply in_or_app. right. apply in_or_app. right.
      apply in_or_app. right. now apply IH.
Qed.

Lemma btoa_outside_latin1 v s :
  mentions v s -> outside_latin1 s -> btoa (JSON_stringify v) = None.
Proof.
  intros M O. destruct (quote_chars_outside_latin1 s O) as (c & Hc & Hq).
  unfold btoa.
  destruct (is_latin1 (JSON_stringify v)) eqn:E; [exfalso|reflexivity].
  apply is_latin1_Forall in E. rewrite Forall_forall in E.
  specialize (E c (serialize_keeps [] c v s M Hq [])).
  unfold byte in E. lia.
Qed.

(** The strings of a request: its event name, and the strings of its song
    and of its songs. *)
Lemma request_mentions_name request :
  mentions (request_json request) (eventName request).
Proof.
  unfold request_json. eapply mentions_member; [left; reflexivity|].
  constructor.
Qed.

Lemma request_mentions_song request v s :
  song (data request) = Some v -> mentions v s ->
  mentions (request_json request) s.
Proof.
  intros Hs M. unfold request_json.
  eapply mentions_member; [right; right; left; reflexivity|].
  unfold data_json. rewrite Hs. cbn [member app].
  eapply mentions_member; [left; reflexivity | exact M].
Qed.

Lemma request_mentions_songs request l v s :
  songs (data request) = Some l -> In v l -> mentions v s ->
  mentions (request_json request) s.
Proof.
  intros Hs Hv M. unfold request_json.
  eapply mentions_member; [right; right; left; reflexivity|].
  unfold data_json. rewrite Hs. cbn [member].
  eapply mentions_member.
  - apply in_or_app. right. left. reflexivity.
  - eapply mentions_item; eassumption.
Qed.

(** X6: over configured destinations, an event that holds a character
    outside Latin-1 anywhere in its strings (a code unit above 255 that is
    not a surrogate, or a surrogate pair) is never sent: [btoa] throws, and
    [sendRequest] ends with [InvalidCharacterError] after its first log
    line, whatever the network; so do the operations given a song with such
    a string, and [scrobble] given a list that holds one. *)
Theorem outside_latin1_rejected this p ps s :
  arrayProperties this = Some (p :: ps) -> outside_latin1 s ->
  (forall net request,
      mentions (request_json request) s ->
      sendRequest this net request
      = ([entry_log request], Throw InvalidCharacterError))
  /\ (forall h v isLoved,
         mentions v s ->
         result (sendNowPlaying this h v) = Throw InvalidCharacterError
         /\ result (sendPaused this h v) = Throw InvalidCharacterError
         /\ result (sendResumedPlaying this h v) = Throw InvalidCharacterError
         /\ result (toggleLove this h v isLoved) = Throw InvalidCharacterError)
  /\ (forall h l v currentlyPlaying,
         In v l -> mentions v s ->
         result (scrobble this h l currentlyPlaying)
         = Throw InvalidCharacterError).
Proof.
  intros Hd O.
  assert (R : forall net request,
             mentions (request_json request) s ->
             sendRequest this net request
             = ([entry_log request], Throw InvalidCharacterError)).
  { intros net request M. apply sendRequest_not_built with p ps; [exact Hd|].
    unfold requestInfo. now rewrite (btoa_outside_latin1 _ s M O). }
  split; [exact R|]. split.
  - intros h v isLoved M.
    unfold sendNowPlaying, sendPaused, sendResumedPlaying, toggleLove.
    repeat split;
      (rewrite R; [reflexivity|];
       eapply request_mentions_song; [reflexivity | exact M]).
  - intros h l v cp Hv M. unfold scrobble. rewrite R; [reflexivity|].
    eapply request_mentions_songs; [reflexivity | exact Hv | exact M].
Qed.

Lemma outside_latin1_rejected_witness :
  result (sendNowPlaying Sample.two_repos
            (mkHost Sample.all_ok Sample.example_time) Sample.cyrillic_song)
  = Throw InvalidCharacterError.
Proof.
  refine (proj1 (proj1 (proj2
            (outside_latin1_rejected Sample.two_repos
               (mkProps (js "alice/music") (js "token-a"))
               [mkProps (js "bob/log") (js "token-b")]
               [1050; 1080; 1085; 1086] eq_refl _))
            (mkHost Sample.all_ok Sample.example_time)
            Sample.cyrillic_song true _)).
  - left. exists 1050. split; [split; lia | left; reflexivity].
  - eapply mentions_member; [left; reflexivity | constructor].
Defined.

(** X5: an operation on songs whose strings are byte strings is never
    rejected: each of the four single-event operations returns a result,
    and [scrobble] returns an array with one entry per song. *)
Theorem byte_string_songs_return this h :
  (forall v isLoved,
      json_latin1 v = true ->
      (exists tr r, sendNowPlaying this h v = (tr, Normal r))
      /\ (exists tr r, sendPaused this h v = (tr, Normal r))
      /\ (exists tr r, sendResumedPlaying this h v = (tr, Normal r))
      /\ (exists tr r, toggleLove this h v isLoved = (tr, Normal r)))
  /\ (forall l currentlyPlaying,
         forallb json_latin1 l = true ->
         exists tr rs,
           scrobble this h l currentlyPlaying = (tr, Normal rs)
           /\ List.length rs = List.length l).
Proof.
  split.
  - intros v isLoved Hv.
    unfold sendNowPlaying, sendPaused, sendResumedPlaying, toggleLove.
    repeat split; apply sendRequest_returns; cbn; rewrite Hv; reflexivity.
  - intros l cp Hl.
    destruct (sendRequest_returns this (fetch_outcome h)
                (mkRequest (js "scrobble") (Date_now h)
                   (mkData (nth_error l 0) (Some l) None (Some cp))))
      as (tr & r & E).
    + destruct l as [|v l']; cbn in Hl |- *; [reflexivity|].
      apply andb_prop in Hl. destruct Hl as [Hv Hl'].
      now rewrite Hv, Hl'.
    + exists tr, (repeat r (List.length l)).
      split; [now apply scrobble_replicates | apply repeat_length].
Qed.

(** ** What a dispatch reports *)

(** The aggregation ends in one of two ways: silently with [RESULT_OK], or
    with [ERROR_OTHER] after one line in the error log. *)
Lemma aggregate_outcomes timeout promises :
  aggregate timeout promises = ([], Normal RESULT_OK)
  \/ exists text,
       aggregate timeout promises
       = ([DebugLog text (Some (js "error"))], Normal ERROR_OTHER)
       /\ (text = js "Error while sending request"
           \/ exists t r,
                In (Fulfilled t r) promises
                /\ text = js "Error in " ++ url r ++ js ".").
Proof.
  destruct (timeoutPromise_cases timeout (Promise_all promises))
    as [(t & rs & E & Ht & _)|(e & E)].
  - apply Promise_all_fulfilled in E.
    assert (F : Forall2 (in_time timeout) promises rs).
    { eapply Forall2_impl; [|exact E].
      intros pr r (t' & -> & Ht'). exists t'. split; [reflexivity|lia]. }
    destruct (Forall_Exists_dec is_200 (fun r => Z.eq_dec (status r) 200) rs)
      as [A|B].
    + left. now apply aggregate_ok with rs.
    + right. destruct (first_offender rs B)
        as (before & bad & after & -> & Hb & Hn).
      exists (js "Error in " ++ url bad ++ js ".").
      split; [now apply aggregate_status with before after|].
      right.
      assert (I : exists pr, In pr promises /\ in_time timeout pr bad).
      { clear - F. remember (before ++ bad :: after) as l eqn:El.
        revert before El. induction F as [|pr r prs rs' Hr _ IH];
          intros before El.
        - destruct before; discriminate.
        - destruct before as [|b before']; cbn in El; injection El as -> ->.
          + exists pr. split; [now left | exact Hr].
          + destruct (IH before' eq_refl) as (pr' & Hin & Hp).
            exists pr'. split; [now right | exact Hp]. }
      destruct I as (pr & Hin & t' & -> & _). now exists t', bad.
  - right. exists (js "Error while sending request").
    split; [now apply aggregate_fault with e | now left].
Qed.

Lemma aggregate_ok_only_if timeout promises tr :
  aggregate timeout promises = (tr, Normal RESULT_OK) ->
  tr = []
  /\ Forall (fun pr => exists r, in_time timeout pr r /\ is_200 r) promises.
Proof.
  intros H.
  destruct (timeoutPromise_cases timeout (Promise_all promises))
    as [(t & rs & E & Ht & _)|(e & E)].
  - apply Promise_all_fulfilled in E.
    assert (F : Forall2 (in_time timeout) promises rs).
    { eapply Forall2_impl; [|exact E].
      intros pr r (t' & -> & Ht'). exists t'. split; [reflexivity|lia]. }
    destruct (Forall_Exists_dec is_200 (fun r => Z.eq_dec (status r) 200) rs)
      as [A|B].
    + rewrite (aggregate_ok _ _ _ F A) in H. injection H as <-.
      split; [reflexivity|].
      clear - F A. induction F as [|pr r prs rs' Hr _ IH]; constructor.
      * exists r. split; [exact Hr | now inversion A].
      * apply IH. now inversion A.
    + destruct (first_offender rs B) as (before & bad & after & -> & Hb & Hn).
      rewrite (aggregate_status _ _ _ _ _ F Hb Hn) in H. discriminate.
  - rewrite (aggregate_fault _ _ _ E) in H. discriminate.
Qed.

Lemma In_promises_from net pr reqs :
  forall i, In pr (promises_from net i reqs) ->
            exists j input init, pr = net j input init.
Proof.
  induction reqs as [|[input init] rest IH]; intros i H; [contradiction|].
  destruct H as [<-|H]; [now exists i, input, init | now apply IH with (S i)].
Qed.

(** X7: [RESULT_OK] is returned only after every destination has answered:
    if [sendRequest] returns [RESULT_OK], destinations are configured, one
    request per destination was sent, every one of them was fulfilled within
    the timeout by a response of status 200, and nothing was logged as an
    error. *)
Theorem sendRequest_ok_only_if this net request :
  result (sendRequest this net request) = Normal RESULT_OK ->
  exists p ps,
    arrayProperties this = Some (p :: ps)
    /\ List.length (sent (sendRequest this net request))
       = List.length (p :: ps)
    /\ Forall (fun pr => exists r,
                   in_time (REQUEST_TIMEOUT this) pr r /\ is_200 r)
         (promises_from net 0 (sent (sendRequest this net request)))
    /\ errors (trace (sendRequest this net request)) = [].
Proof.
  intros H. destruct (arrayProperties this) as [[|p ps]|] eqn:Hd.
  - rewrite sendRequest_unconfigured in H by auto. discriminate.
  - exists p, ps. split; [reflexivity|].
    destruct (sendRequest_cases this net request p ps Hd)
      as [(_ & E)|(info & tr & r & Hi & Ha & Htr & E)];
      rewrite E in H; [discriminate|].
    injection H as ->.
    destruct (aggregate_ok_only_if _ _ _ Ha) as [-> Hall].
    assert (S : sent (sendRequest this net request)
                = map (request_for request info) (p :: ps)).
    { rewrite E. unfold sent, trace. cbn [fst].
      change (entry_log request :: ?l) with ([entry_log request] ++ l).
      rewrite !requests_app, requests_issued, app_nil_r. reflexivity. }
    rewrite S. split; [now rewrite length_map|]. split; [exact Hall|].
    rewrite E. unfold trace. cbn [fst]. now rewrite errors_dispatch.
  - rewrite sendRequest_unconfigured in H by auto. discriminate.
Qed.

Lemma sendRequest_ok_only_if_witness :
  errors (trace (sendRequest Sample.two_repos Sample.all_ok
                   Sample.nowplaying_ascii)) = [].
Proof.
  destruct (sendRequest_ok_only_if Sample.two_repos Sample.all_ok
              Sample.nowplaying_ascii eq_refl)
    as (p & ps & _ & _ & _ & E).
  exact E.
Defined.

(** The requests sent are none, or one per configured destination. *)
Lemma sendRequest_sent_count this net request :
  sent (sendRequest this net request) = []
  \/ exists dests,
       arrayProperties this = Some dests
       /\ List.length (sent (sendRequest this net request))
          = List.length dests.
Proof.
  destruct (arrayProperties this) as [[|p ps]|] eqn:Hd.
  - rewrite sendRequest_unconfigured by auto. now left.
  - destruct (sendRequest_cases this net request p ps Hd)
      as [(_ & E)|(info & tr & r & Hi & Ha & Htr & E)]; rewrite E.
    + now left.
    + right. exists (p :: ps). split; [reflexivity|].
      unfold sent, trace. cbn [fst].
      change (entry_log request :: ?l) with ([entry_log request] ++ l).
      rewrite !requests_app, requests_issued, Htr, app_nil_r.
      cbn [requests flat_map entry_log app]. apply length_map.
  - rewrite sendRequest_unconfigured by auto. now left.
Qed.

(** X8: the fan-out is all or nothing, and the error log tells the result:
    the requests sent are none or exactly one per configured destination;
    at most one line is logged as an error, and one is logged exactly when
    [ERROR_OTHER] is returned. *)
Theorem dispatch_all_or_nothing this net request :
  (sent (sendRequest this net request) = []
   \/ exists dests,
        arrayProperties this = Some dests
        /\ List.length (sent (sendRequest this net request))
           = List.length dests)
  /\ (List.length (errors (trace (sendRequest this net request))) <= 1)%nat
  /\ (result (sendRequest this net request) = Normal ERROR_OTHER
      <-> List.length (errors (trace (sendRequest this net request))) = 1%nat).
Proof.
  split; [apply sendRequest_sent_count|].
  destruct (arrayProperties this) as [[|p ps]|] eqn:Hd.
  - rewrite sendRequest_unconfigured by auto.
    cbn. repeat split; try lia; discriminate.
  - destruct (sendRequest_cases this net request p ps Hd)
      as [(_ & E)|(info & tr & r & Hi & Ha & Htr & E)]; rewrite E.
    + cbn. repeat split; try lia; discriminate.
    + unfold trace, result. cbn [fst snd]. rewrite errors_dispatch.
      destruct (aggregate_outcomes (REQUEST_TIMEOUT this)
                  (promises_from net 0
                     (map (request_for request info) (p :: ps))))
        as [O|(text & O & _)]; rewrite O in Ha; injection Ha as <- <-.
      * cbn. repeat split; try lia; discriminate.
      * cbn. repeat split; lia.
  - rewrite sendRequest_unconfigured by auto.
    cbn. repeat split; try lia; discriminate.
Qed.

(** X12: what the class writes to the log: every line of a dispatch is
    the dump of the request (at the default level), the fixed message of
    the catch block, or names the URL that one of the responses carries
    (both at level [error]); no line is made from a destination's token. *)
Theorem dispatch_log_lines this net request text level :
  In (DebugLog text level) (trace (sendRequest this net request)) ->
  (level = None
   /\ text = js "GitHub - sendRequest: "
             ++ JSON_stringify_indent 2 (request_json request))
  \/ (level = Some (js "error")
      /\ (text = js "Error while sending request"
          \/ exists i input init t r,
               net i input init = Fulfilled t r
               /\ text = js "Error in " ++ url r ++ js ".")).
Proof.
  intros H. destruct (arrayProperties this) as [[|p ps]|] eqn:Hd.
  - rewrite sendRequest_unconfigured in H by auto. contradiction.
  - destruct (sendRequest_cases this net request p ps Hd)
      as [(_ & E)|(info & tr & r & Hi & Ha & Htr & E)]; rewrite E in H;
      unfold trace in H; cbn [fst] in H.
    + destruct H as [H|[]]. unfold entry_log in H. injection H as <- <-.
      left. split; reflexivity.
    + destruct H as [H|H].
      * unfold entry_log in H. injection H as <- <-. left. split; reflexivity.
      * apply in_app_or in H. destruct H as [H|H].
        { apply in_map_iff in H. destruct H as (q & Hq & _). discriminate. }
        destruct (aggregate_outcomes (REQUEST_TIMEOUT this)
                    (promises_from net 0
                       (map (request_for request info) (p :: ps))))
          as [O|(text' & O & Ht)]; rewrite O in Ha; injection Ha as <- <-.
        { contradiction. }
        destruct H as [H|[]]. injection H as <- <-.
        right. split; [reflexivity|].
        destruct Ht as [->|(t & r' & Hin & ->)]; [now left|right].
        apply In_promises_from in Hin.
        destruct Hin as (j & input & init & Hj).
        exists j, input, init, t, r'. split; [now symmetry | reflexivity].
  - rewrite sendRequest_unconfigured in H by auto. contradiction.
Qed.

Lemma dispatch_log_lines_witness :
  exists text,
    In (DebugLog text (Some (js "error")))
      (trace (sendRequest Sample.two_repos Sample.second_404
                Sample.nowplaying_ascii))
    /\ (text = js "Error while sending request"
        \/ exists i input init t r,
             Sample.second_404 i input init = Fulfilled t r
             /\ text = js "Error in " ++ url r ++ js ".").
Proof.
  eexists. split.
  - vm_compute. right. right. right. left. reflexivity.
  - match goal with
    | |- ?t = _ \/ _ =>
        assert (H : In (DebugLog t (Some (js "error")))
                      (trace (sendRequest Sample.two_repos Sample.second_404
                                Sample.nowplaying_ascii)))
          by (vm_compute; right; right; right; left; reflexivity);
        destruct (dispatch_log_lines Sample.two_repos Sample.second_404
                    Sample.nowplaying_ascii _ _ H) as [[L _]|[_ R]];
        [discriminate L | exact R]
    end.
Defined.

(** X11: [ERROR_AUTH] is a verdict on the configuration alone: whatever the
    request and the network, [sendRequest] returns it exactly when no
    destination is configured, which is exactly when [getSession] is
    rejected. *)
Theorem auth_error_iff_unconfigured this net request :
  (result (sendRequest this net request) = Normal ERROR_AUTH
   <-> arrayProperties this = None \/ arrayProperties this = Some [])
  /\ (result (sendRequest this net request) = Normal ERROR_AUTH
      <-> exists e, result (getSession this) = Throw e).
Proof.
  assert (A : result (sendRequest this net request) = Normal ERROR_AUTH
              <-> arrayProperties this = None \/ arrayProperties this = Some []).
  { split.
    - intros H. destruct (arrayProperties this) as [[|p ps]|] eqn:Hd; auto.
      exfalso.
      destruct (sendRequest_cases this net request p ps Hd)
        as [(_ & E)|(info & tr & r & Hi & Ha & Htr & E)]; rewrite E in H;
        [discriminate|].
      injection H as ->.
      destruct (aggregate_outcomes (REQUEST_TIMEOUT this)
                  (promises_from net 0
                     (map (request_for request info) (p :: ps))))
        as [O|(text & O & _)]; rewrite O in Ha; discriminate.
    - intros H. now rewrite sendRequest_unconfigured. }
  split; [exact A|]. rewrite A. unfold getSession.
  destruct (arrayProperties this) as [[|p ps]|]; cbn [result snd throw ret].
  - split; [eauto | auto].
  - split; [intros [[=]|[=]] | intros (e & [=])].
  - split; [eauto | auto].
Qed.

(** X9: [scrobble] batches: whenever it returns, its array has one entry
    per song, all entries are the outcome of its single dispatch, and the
    requests sent are none or one per configured destination, however many
    songs there are. *)
Theorem scrobble_one_dispatch this h songs currentlyPlaying tr rs :
  scrobble this h songs currentlyPlaying = (tr, Normal rs) ->
  exists res,
    sendRequest this (fetch_outcome h)
      (mkRequest (js "scrobble") (Date_now h)
         (mkData (nth_error songs 0) (Some songs) None
            (Some currentlyPlaying)))
    = (tr, Normal res)
    /\ rs = repeat res (List.length songs)
    /\ (requests tr = []
        \/ exists dests,
             arrayProperties this = Some dests
             /\ List.length (requests tr) = List.length dests).
Proof.
  intros H. unfold scrobble in H.
  set (request := mkRequest (js "scrobble") (Date_now h)
                    (mkData (nth_error songs 0) (Some songs) None
                       (Some currentlyPlaying))) in *.
  pose proof (sendRequest_sent_count this (fetch_outcome h) request) as C.
  unfold sent, trace in C.
  destruct (sendRequest this (fetch_outcome h) request) as [tr0 [res|e]];
    cbn [bind ret fst] in H, C; [|discriminate].
  rewrite app_nil_r in H. injection H as <- <-.
  exists res. split; [reflexivity|]. split; [reflexivity|].
  exact C.
Qed.

Lemma scrobble_one_dispatch_witness :
  exists res,
    result (scrobble Sample.two_repos
              (mkHost Sample.all_ok Sample.example_time)
              [Sample.ascii_song; Sample.ascii_song; Sample.ascii_song] false)
    = Normal (repeat res 3).
Proof.
  destruct (scrobble_one_dispatch Sample.two_repos
              (mkHost Sample.all_ok Sample.example_time)
              [Sample.ascii_song; Sample.ascii_song; Sample.ascii_song] false
              _ _ eq_refl)
    as (res & _ & E & _).
  exists res. exact (f_equal Normal E).
Defined.

(** ** What a dispatch sends *)

(** X1: the requests of a dispatch are a function of the request and of
    the destination list alone, whatever the network and the timeout: when
    [btoa] rejects the serialized event nothing is sent, and otherwise one
    [PUT] goes to every destination, in the order of the list, all with the
    same body and the same [Content-Type], each with the target and the
    bearer token of its own destination. *)
Theorem dispatch_requests this net request dests :
  arrayProperties this = Some dests ->
  (btoa (JSON_stringify (request_json request)) = None
   /\ sent (sendRequest this net request) = [])
  \/ (exists content,
        btoa (JSON_stringify (request_json request)) = Some content
        /\ sent (sendRequest this net request)
           = map (fun p =>
                    (targetUrl request p,
                     mkRequestInit (js "PUT")
                       [(js "Content-Type", js "application/json");
                        (js "Authorization", js "Bearer " ++ userApiUrl p)]
                       (JSON_stringify (body_json request content))))
               dests).
Proof.
  intros Hd.
  destruct (btoa (JSON_stringify (request_json request))) as [content|] eqn:B.
  - right. exists content. split; [reflexivity|].
    destruct dests as [|p ps].
    + rewrite sendRequest_unconfigured by auto. reflexivity.
    + apply sendRequest_requests; [exact Hd | discriminate | exact B].
  - left. split; [reflexivity|].
    destruct dests as [|p ps].
    + rewrite sendRequest_unconfigured by auto. reflexivity.
    + rewrite (sendRequest_not_built this net request p ps
                 InvalidCharacterError Hd); [reflexivity|].
      unfold requestInfo. now rewrite B.
Qed.

Lemma dispatch_requests_witness :
  List.length (sent (sendRequest Sample.two_repos Sample.second_hangs
                       Sample.nowplaying_ascii)) = 2%nat.
Proof.
  destruct (dispatch_requests Sample.two_repos Sample.second_hangs
              Sample.nowplaying_ascii _ eq_refl)
    as [(B & _)|(content & _ & E)].
  - vm_compute in B. discriminate B.
  - rewrite E. reflexivity.
Defined.

(** X4: whatever is sent can be read back: the body of every request of a
    dispatch is the serialized commit object whose [content] member
    base64-decodes to [JSON.stringify(request)], code unit for code unit. *)
Theorem sent_content_decodes this net request input init :
  In (input, init) (sent (sendRequest this net request)) ->
  exists content,
    body init = JSON_stringify (body_json request content)
    /\ base64_decode content = Some (JSON_stringify (request_json request)).
Proof.
  intros H. destruct (arrayProperties this) as [[|p ps]|] eqn:Hd.
  - rewrite sendRequest_unconfigured in H by auto. contradiction.
  - destruct (sendRequest_cases this net request p ps Hd)
      as [(_ & E)|(info & tr & r & Hi & Ha & Htr & E)]; rewrite E in H.
    + contradiction.
    + unfold sent, trace in H. cbn [fst] in H.
      change (entry_log request :: ?l) with ([entry_log request] ++ l) in H.
      rewrite !requests_app, requests_issued, Htr, app_nil_r in H.
      cbn [requests flat_map entry_log app] in H.
      apply in_map_iff in H. destruct H as (q & Hq & _).
      unfold request_for in Hq. injection Hq as _ <-.
      cbn [fetch_init body]. now apply content_decodes.
  - rewrite sendRequest_unconfigured in H by auto. contradiction.
Qed.

Lemma sent_content_decodes_witness :
  exists content,
    base64_decode content
    = Some (JSON_stringify (request_json Sample.nowplaying_ascii)).
Proof.
  assert (H : In (targetUrl Sample.nowplaying_ascii
                    (mkProps (js "alice/music") (js "token-a")),
                  fetch_init
                    (mkRequestInit (js "PUT")
                       [(js "Content-Type", js "application/json")]
                       (JSON_stringify
                          (body_json Sample.nowplaying_ascii
                             (base64_encode
                                (JSON_stringify
                                   (request_json Sample.nowplaying_ascii))))))
                    (mkProps (js "alice/music") (js "token-a")))
                (sent (sendRequest Sample.two_repos Sample.all_ok
                         Sample.nowplaying_ascii)))
    by (left; reflexivity).
  destruct (sent_content_decodes _ _ _ _ _ H) as (content & _ & D).
  exists content. exact D.
Defined.

(** X2: for a destination named [owner/repo], or [owner/repo/...], in
    plain characters (no [$] and no brace in owner and repository), and an
    event name without [$], the request goes to the contents endpoint of
    that repository at the derived path:
    [https://api.github.com/repos/<owner>/<repo>/contents/<path>]. *)
Theorem targetUrl_contents_endpoint request p owner repo tail :
  applicationName p = owner ++ js "/" ++ repo ++ tail ->
  tail = [] \/ (exists rest, tail = js "/" ++ rest) ->
  plain owner -> plain repo -> ~ In DOLLAR (eventName request) ->
  targetUrl request p
  = js "https://api.github.com/repos/" ++ owner ++ js "/" ++ repo
      ++ js "/contents/" ++ derivedPath request.
Proof.
  intros Hn Ht Ho Hr He.
  transitivity (targetUrl request (mkProps (owner ++ js "/" ++ repo) [])).
  - destruct Ht as [->|(rest & ->)].
    + rewrite app_nil_r in Hn. apply targetUrl_pieces; now rewrite Hn.
    + destruct Ho as (Ho & _), Hr as (Hr & _).
      rewrite <- (targetUrl_extra_segments request owner repo rest [] [])
        by assumption.
      apply targetUrl_pieces; now rewrite Hn.
  - rewrite (targetUrl_owner_repo request
               (mkProps (owner ++ js "/" ++ repo) []) owner repo
               eq_refl Ho Hr He).
    reflexivity.
Qed.

Lemma targetUrl_contents_endpoint_witness :
  targetUrl Sample.nowplaying_ascii
    (mkProps (js "alice/music/tree/main") (js "token-a"))
  = js "https://api.github.com/repos/" ++ js "alice" ++ js "/" ++ js "music"
      ++ js "/contents/" ++ derivedPath Sample.nowplaying_ascii.
Proof.
  apply (targetUrl_contents_endpoint Sample.nowplaying_ascii
           (mkProps (js "alice/music/tree/main") (js "token-a"))
           (js "alice") (js "music") (js "/tree/main")).
  - reflexivity.
  - right. exists (js "tree/main"). reflexivity.
  - repeat split; vm_compute; intuition discriminate.
  - repeat split; vm_compute; intuition discriminate.
  - vm_compute; intuition discriminate.
Defined.

(** ** The folder of an event *)

Lemma month_length_at_least_28 y m : 0 <= m <= 11 -> 28 <= month_length y m.
Proof.
  intros H. rewrite month_length_cases by exact H.
  assert (C : m = 0 \/ m = 1 \/ m = 2 \/ m = 3 \/ m = 4 \/ m = 5 \/ m = 6
              \/ m = 7 \/ m = 8 \/ m = 9 \/ m = 10 \/ m = 11) by lia.
  repeat (destruct C as [C|C]; [subst m; try destruct (leap_year y); lia|]).
  subst m. lia.
Qed.

(** Up to the 28th, the days that follow lie in the same month. *)
Lemma civil_days_later t k :
  DateFromTime t + Z.of_nat k <= 28 ->
  civil_of_time (t + Z.of_nat k * msPerDay)
  = mkCivil (YearFromTime t) (MonthFromTime t)
      (DateFromTime t + Z.of_nat k) ((WeekDay t + Z.of_nat k) mod 7).
Proof.
  induction k as [|k IH]; intros H.
  - replace (t + Z.of_nat 0 * msPerDay) with t by lia.
    rewrite !Z.add_0_r.
    destruct (civil_of_time_ok t) as (_ & _ & Hw).
    cbn [weekday civil_of_time] in Hw.
    rewrite Z.mod_small by lia. reflexivity.
  - rewrite (civil_step (t + Z.of_nat k * msPerDay))
      by (unfold Day, msPerDay; zdiv).
    rewrite IH by lia.
    destruct (civil_of_time_ok t) as (Hm & _ & _).
    cbn [month civil_of_time] in Hm.
    pose proof (month_length_at_least_28 (YearFromTime t) _ Hm) as L.
    unfold tomorrow; cbn [year month day weekday].
    destruct (Z.ltb_spec (DateFromTime t + Z.of_nat k)
                (month_length (YearFromTime t) (MonthFromTime t))); [|lia].
    f_equal; [lia | zdiv].
Qed.

(** X13: the folder of an event does not tell its date: a timestamp on one
    of the first 21 days of a month and the timestamp exactly one week later
    (another day of the same month) are stored in the same folder
    [<year>/<month>/<weekday>/], the file names alone differing. *)
Theorem folder_repeats_weekly name t payload payload' :
  Z.abs t <= maxTime -> Z.abs (t + 7 * msPerDay) <= maxTime ->
  DateFromTime t <= 21 ->
  DateFromTime (t + 7 * msPerDay) = DateFromTime t + 7
  /\ exists folder,
       derivedPath (mkRequest name t payload)
       = folder ++ decimal t ++ js "-" ++ name ++ js ".json"
       /\ derivedPath (mkRequest name (t + 7 * msPerDay) payload')
          = folder ++ decimal (t + 7 * msPerDay) ++ js "-" ++ name
              ++ js ".json".
Proof.
  intros Ht Ht' Hd.
  pose proof (civil_days_later t 7 ltac:(lia)) as C.
  change (Z.of_nat 7) with 7 in C.
  unfold civil_of_time at 1 in C. injection C as Cy Cm Cd Cw.
  destruct (civil_of_time_ok t) as (_ & _ & Hw).
  cbn [weekday civil_of_time] in Hw.
  assert (Cy' : YearFromTime (t + 7 * msPerDay) = YearFromTime t) by exact Cy.
  assert (Cm' : MonthFromTime (t + 7 * msPerDay) = MonthFromTime t)
    by exact Cm.
  assert (Cw' : WeekDay (t + 7 * msPerDay) = WeekDay t)
    by (etransitivity; [exact Cw | zdiv]).
  split; [exact Cd|].
  exists (decimal (YearFromTime t) ++ js "/" ++ decimal (MonthFromTime t)
            ++ js "/" ++ decimal (WeekDay t) ++ js "/").
  rewrite !derivedPath_valid by assumption.
  cbn [time eventName]. rewrite Cy', Cm', Cw'. unfold path_of.
  rewrite <- !app_assoc. split; reflexivity.
Qed.

Lemma folder_repeats_weekly_witness :
  DateFromTime (Sample.example_time + 7 * msPerDay)
  = DateFromTime Sample.example_time + 7.
Proof.
  apply (folder_repeats_weekly (js "paused") Sample.example_time
           (mkData None None None None) (mkData None None None None));
    vm_compute; discriminate.
Defined.
